(** * Coverage summaries of [variant_qc/exomes_genomes_coverage.py]

    A shallow embedding of the table algebra of the script: the gene model
    built from the GTF ([import_cds_from_gtf]), the haploid-adjusted
    coverage struct ([get_haploid_coverage_struct], [get_cov_ht]), the
    per-base join ([compute_per_base_cds_coverage]) and the per-gene export
    ([export_gene_coverage]).

    Conventions of the embedding.
    - A Hail table is the list of its rows; the order the engine keeps
      them in is not modelled beyond what the list fixes.
    - A nullable Hail value is an [option]; [None] is the missing value.
    - Hail floats are idealised as exact rationals ([Q]); equalities of
      computed numbers are stated with [==].  Division by zero, a NaN or
      an infinity in Hail, is [Q]'s [x / 0 == 0]; either way the value is
      not missing.
    - A Python exception raised while the Hail expression is being built
      (a field that the entry schema lacks) is the [Err] of [result]. *)

From Stdlib Require Import ZArith QArith Qminmax List String Ascii Bool Lia.
From Stdlib Require Import DecimalString Decimal.
Import ListNotations.
Open Scope string_scope.
Open Scope Z_scope.

Set Implicit Arguments.

(** ** Expression-building errors *)

Inductive result (A : Type) : Type :=
| OK (a : A)
| Err (msg : string).
Arguments OK {A} a.
Arguments Err {A} msg.

Definition bind {A B : Type} (r : result A) (k : A -> result B) : result B :=
  match r with
  | OK a => k a
  | Err m => Err m
  end.

Notation "x <- r ;; k" := (bind r (fun x => k))
  (at level 61, r at next level, right associativity).

Fixpoint mapM {A B : Type} (f : A -> result B) (l : list A) : result (list B) :=
  match l with
  | [] => OK []
  | a :: l' => b <- f a ;; bs <- mapM f l' ;; OK (b :: bs)
  end.

(** ** Python helpers *)

Definition str_of_nat (k : nat) : string := NilZero.string_of_uint (Nat.to_uint k).

(** [str(float(i))] for a small non-negative integer [i]: ["10.0"]. *)
Definition py_str_float (i : nat) : string := str_of_nat i ++ ".0".

(** [str(i/2)] for a small non-negative integer [i] (true division):
    ["2.5"] for 5, ["5.0"] for 10. *)
Definition py_str_half (i : nat) : string :=
  str_of_nat (Nat.div2 i) ++ (if Nat.even i then ".0" else ".5").

(** [range(start, stop, step)] for a positive step, with [fuel] bounding
    the number of elements. *)
Fixpoint py_range_fuel (fuel start stop step : nat) : list nat :=
  match fuel with
  | O => []
  | S fuel' =>
      if Nat.ltb start stop
      then start :: py_range_fuel fuel' (start + step) stop step
      else []
  end.

Definition py_range (start stop step : nat) : list nat :=
  py_range_fuel (stop - start) start stop step.

(** [x in l] on strings. *)
Definition str_in (x : string) (l : list string) : bool :=
  existsb (String.eqb x) l.

(** Lookup in a list of named fields (a Python dict, a Hail struct). *)
Fixpoint lookup {A : Type} (k : string) (l : list (string * A)) : option A :=
  match l with
  | [] => None
  | (k', v) :: l' => if String.eqb k k' then Some v else lookup k l'
  end.

(** ** Hail values and aggregators *)

Record locus : Type := { contig : string; position : Z }.

Definition locus_eqb (a b : locus) : bool :=
  String.eqb (contig a) (contig b) && Z.eqb (position a) (position b).

(** [hl.cond]: missing when the condition is. *)
Definition hl_cond {A : Type} (c : option bool) (t e : option A) : option A :=
  match c with
  | Some true => t
  | Some false => e
  | None => None
  end.

(** [hl.agg.sum]: the sum of the non-missing values, 0 when there are none. *)
Fixpoint agg_sum (xs : list (option Q)) : Q :=
  match xs with
  | [] => 0%Q
  | Some x :: xs' => (x + agg_sum xs')%Q
  | None :: xs' => agg_sum xs'
  end.

(** [hl.agg.collect]. *)
Definition agg_collect {A : Type} (xs : list A) : list A := xs.

Fixpoint q_insert (x : Q) (l : list Q) : list Q :=
  match l with
  | [] => [x]
  | y :: l' => if Qle_bool x y then x :: l else y :: q_insert x l'
  end.

Definition q_sort (l : list Q) : list Q := fold_right q_insert [] l.

Fixpoint drop_missing {A : Type} (xs : list (option A)) : list A :=
  match xs with
  | [] => []
  | Some x :: xs' => x :: drop_missing xs'
  | None :: xs' => drop_missing xs'
  end.

(** [hl.median]: missing elements are ignored; the median of the sorted
    rest is its middle element, or the mean of the two middle ones; it is
    missing when nothing is left. *)
Definition hl_median (xs : list (option Q)) : option Q :=
  let a := q_sort (drop_missing xs) in
  let size := List.length a in
  match size with
  | O => None
  | S last_idx =>
      let mid_idx := Nat.div last_idx 2 in
      if Nat.odd size
      then Some (nth mid_idx a 0%Q)
      else Some ((nth mid_idx a 0 + nth (S mid_idx) a 0) / 2)%Q
  end.

(** [hl.agg.mean]: the mean of the non-missing values, missing when there
    are none. *)
Definition agg_mean (xs : list (option Q)) : option Q :=
  match drop_missing xs with
  | [] => None
  | _ :: _ as a => Some (agg_sum xs / inject_Z (Z.of_nat (List.length a)))%Q
  end.

(** [hl.agg.fraction]: the share of the records whose predicate is true; a
    missing predicate counts as false; missing when there is no record. *)
Definition agg_fraction (ps : list (option bool)) : option Q :=
  match ps with
  | [] => None
  | _ :: _ =>
      let num := List.length (filter (fun p => match p with Some true => true | _ => false end) ps) in
      Some (inject_Z (Z.of_nat num) / inject_Z (Z.of_nat (List.length ps)))%Q
  end.

(** [hl.agg.min] and [hl.agg.max] on integers, missing on no record. *)
Definition agg_min (xs : list Z) : option Z :=
  match xs with
  | [] => None
  | x :: xs' => Some (fold_left Z.min xs' x)
  end.

Definition agg_max (xs : list Z) : option Z :=
  match xs with
  | [] => None
  | x :: xs' => Some (fold_left Z.max xs' x)
  end.

(** [hl.agg.take(x, 1)[0]]: the first record, missing when there is none
    (indexing the empty array). *)
Definition agg_take1 {A : Type} (xs : list A) : option A :=
  match xs with
  | [] => None
  | x :: _ => Some x
  end.

(** ** The grouped coverage matrix *)

(** Column fields of the matrix. *)
Record col : Type := { qc_platform : string; sex : string }.

(** Entry fields: per group of [n] samples the mean and median depth, and
    under the name [over_<x>] the number of samples at depth [x] or more. *)
Record entry : Type := {
  mean : Q;
  median : Q;
  n : Z;
  over : list (string * Q)
}.

(** A matrix table: the names of the entry fields ([mt.entry]), the columns,
    and per row the locus and one entry per column. *)
Record matrix_table : Type := {
  entry_schema : list string;
  cols : list col;
  rows : list (locus * list entry)
}.

(** What an aggregation over the columns of one row ranges over. *)
Definition scope : Type := list (col * entry).

(** [mt[name]]: Python raises when the entry has no such field; the value
    of a field that an entry does not carry is missing. *)
Definition mt_field (schema : list string) (name : string)
  : result (col * entry -> option Q) :=
  if str_in name schema
  then OK (fun ce => lookup name (over (snd ce)))
  else Err ("entry has no field " ++ name).

(** The haploid-adjusted struct: [mean], [median] and the [over_<x>] fields
    in the order they are given to [hl.struct]. *)
Record coverage_struct : Type := {
  cs_mean : option Q;
  cs_median : option Q;
  cs_over : list (string * option Q)
}.

(** [[1] + list(range(5,31,5)) + [50, 100]] *)
Definition thresholds : list nat := ([1] ++ py_range 5 31 5 ++ [50; 100])%list%nat.

(** [f'over_{i/2}'] and [f'over_{float(i)}'] *)
Definition over_half (i : nat) : string := "over_" ++ py_str_half i.
Definition over_full (i : nat) : string := "over_" ++ py_str_float i.

Definition is_male (ce : col * entry) : bool := String.eqb (sex (fst ce)) "male".
Definition q_n (ce : col * entry) : Q := inject_Z (n (snd ce)).
Definition half : Q := 1 # 2.

Section Coverage.

(** [locus.in_autosome_or_par()] of the reference genome. *)
Variable in_autosome_or_par : locus -> bool.

(** The two [over_] dict comprehensions, built while the expression is
    constructed, then the struct of the branch [hl.cond] selects. *)
Definition get_haploid_coverage_struct (schema : list string)
  : result (locus -> scope -> coverage_struct) :=
  diploid_over <-
    mapM (fun i =>
            full <- mt_field schema (over_full i) ;;
            OK (over_half i,
                fun mt : scope =>
                  Some (agg_sum (map full mt)
                        / agg_sum (map (fun ce => Some (q_n ce)) mt))%Q))
         thresholds ;;
  haploid_over <-
    mapM (fun i =>
            if negb (str_in (over_half i) schema)
            then OK (over_half i, fun _ : scope => @None Q)
            else
              halved <- mt_field schema (over_half i) ;;
              full <- mt_field schema (over_full i) ;;
              OK (over_half i,
                  fun mt : scope =>
                    Some (agg_sum (map (fun ce => hl_cond (Some (is_male ce)) (halved ce) (full ce)) mt)
                          / agg_sum (map (fun ce => Some (q_n ce)) mt))%Q))
         thresholds ;;
  OK (fun (l : locus) (mt : scope) =>
        if in_autosome_or_par l
        then
          {| cs_mean :=
               Some (half * agg_sum (map (fun ce => Some (mean (snd ce) * q_n ce)) mt)
                     / agg_sum (map (fun ce => Some (q_n ce)) mt))%Q;
             cs_median :=
               option_map (Qmult half)
                 (hl_median (agg_collect (map (fun ce => Some (median (snd ce))) mt)));
             cs_over := map (fun nf => (fst nf, snd nf mt)) diploid_over |}
        else
          {| cs_mean :=
               Some (agg_sum (map (fun ce =>
                                     hl_cond (Some (is_male ce))
                                       (Some (mean (snd ce) * q_n ce))
                                       (Some (half * mean (snd ce) * q_n ce))) mt)
                     / agg_sum (map (fun ce => Some (q_n ce)) mt))%Q;
             cs_median :=
               hl_median (agg_collect (map (fun ce =>
                                              hl_cond (Some (is_male ce))
                                                (Some (median (snd ce)))
                                                (Some (half * median (snd ce))%Q)) mt));
             cs_over := map (fun nf => (fst nf, snd nf mt)) haploid_over |}).

End Coverage.

(** The locus-keyed table [get_cov_ht] returns: the names of its row
    fields and, per locus, the struct of each. *)
Record cov_table : Type := {
  cov_fields : list string;
  cov_rows : list (locus * list (string * coverage_struct))
}.

Section CoverageTable.

Variable in_autosome_or_par : locus -> bool.

(** [hl.agg.filter(cov_mt.qc_platform == platform, ...)] *)
Definition agg_filter_platform (platform : string) (mt : scope) : scope :=
  filter (fun ce => String.eqb (qc_platform (fst ce)) platform) mt.

(** One struct per platform observed on the columns, then the struct
    over all columns.  Passing a platform named [all] would give
    [select_rows] the same keyword twice. *)
Definition get_cov_ht (data_type : string) (cov_mt : matrix_table)
  : result cov_table :=
  let qc_platforms := nodup string_dec (map qc_platform (cols cov_mt)) in
  by_platform <-
    mapM (fun platform =>
            s <- get_haploid_coverage_struct in_autosome_or_par (entry_schema cov_mt) ;;
            OK (data_type ++ "_" ++ platform,
                fun (l : locus) (mt : scope) => s l (agg_filter_platform platform mt)))
         qc_platforms ;;
  s_all <- get_haploid_coverage_struct in_autosome_or_par (entry_schema cov_mt) ;;
  if str_in (data_type ++ "_all") (map fst by_platform)
  then Err "select_rows got multiple values for a keyword argument"
  else
    let fields := List.app by_platform [(data_type ++ "_all", s_all)] in
    OK {| cov_fields := map fst fields;
          cov_rows :=
            map (fun r =>
                   (fst r,
                    map (fun nf => (fst nf, snd nf (fst r) (combine (cols cov_mt) (snd r))))
                        fields))
                (rows cov_mt) |}.

End CoverageTable.

(** ** The gene model *)

(** A Hail interval. *)
Record hl_interval : Type := {
  i_start : locus;
  i_end : locus;
  includes_start : bool;
  includes_end : bool
}.

(** A line of the GTF file: its sequence name, feature, 1-based start and
    end, and the attributes the script reads. *)
Record gtf_line : Type := {
  seqname : string;
  l_feature : string;
  l_start : Z;
  l_end : Z;
  l_transcript_type : option string;
  l_tag : option string;
  l_gene_id : string;
  l_gene_name : string
}.

(** A row of the table [hl.experimental.import_gtf] returns. *)
Record gtf_row : Type := {
  feature : string;
  transcript_type : option string;
  tag : option string;
  gene_id : string;
  gene_name : string;
  interval : hl_interval
}.

(** For GRCh37 the importer drops a leading [chr] of the sequence name. *)
Definition strip_chr (s : string) : string :=
  if String.prefix "chr" s then String.substring 3 (String.length s - 3) s else s.

(** [import_gtf(..., reference_genome='GRCh37', skip_invalid_contigs=True)]:
    lines on a contig the reference does not have are dropped; the interval
    of a line runs from its start to its end, both included, as GTF
    coordinates are. *)
Definition import_gtf (valid_contigs : list string) (lines : list gtf_line)
  : list gtf_row :=
  map (fun ln =>
         {| feature := l_feature ln;
            transcript_type := l_transcript_type ln;
            tag := l_tag ln;
            gene_id := l_gene_id ln;
            gene_name := l_gene_name ln;
            interval :=
              {| i_start := {| contig := strip_chr (seqname ln); position := l_start ln |};
                 i_end := {| contig := strip_chr (seqname ln); position := l_end ln |};
                 includes_start := true;
                 includes_end := true |} |})
      (filter (fun ln => str_in (strip_chr (seqname ln)) valid_contigs) lines).

(** [==] of a nullable string with a literal, and Hail's [&] (false wins
    over missing). *)
Definition hl_str_eq (a : option string) (b : string) : option bool :=
  option_map (fun s => String.eqb s b) a.

Definition hl_and (a b : option bool) : option bool :=
  match a, b with
  | Some false, _ | _, Some false => Some false
  | Some true, Some true => Some true
  | _, _ => None
  end.

(** [Table.filter] keeps the rows whose predicate is true. *)
Definition keep (p : option bool) : bool :=
  match p with Some true => true | _ => false end.

(** [hl.range(start, stop)]: [start], ..., [stop - 1]. *)
Definition hl_range (start stop : Z) : list Z :=
  map (fun k => start + Z.of_nat k) (seq 0 (Z.to_nat (stop - start))).

(** A row of the gene model: one base of one gene. *)
Record gene_base : Type := {
  g_gene_id : string;
  g_locus : locus;
  g_gene_name : string
}.

Definition key_eqb (a b : gene_base) : bool :=
  locus_eqb (g_locus a) (g_locus b) && String.eqb (g_gene_id a) (g_gene_id b).

(** [key_by('locus', 'gene_id').distinct()]: one row per key, here the
    first of each. *)
Fixpoint distinct (l : list gene_base) : list gene_base :=
  match l with
  | [] => []
  | r :: l' => r :: filter (fun r' => negb (key_eqb r r')) (distinct l')
  end.

Definition is_basic_cds (r : gtf_row) : bool :=
  keep (hl_and (hl_and (Some (String.eqb (feature r) "CDS"))
                       (hl_str_eq (transcript_type r) "protein_coding"))
               (hl_str_eq (tag r) "basic")).

(** The [locus] array a row is annotated with. *)
Definition locus_array (r : gtf_row) : list locus :=
  map (fun x => {| contig := contig (i_start (interval r)); position := x |})
      (hl_range (position (i_start (interval r))) (position (i_end (interval r)))).

(** [select('gene_id', 'locus', 'gene_name').explode('locus')] on one row. *)
Definition explode_locus (r : gtf_row) : list gene_base :=
  map (fun l => {| g_gene_id := gene_id r; g_locus := l; g_gene_name := gene_name r |})
      (locus_array r).

Definition import_cds_from_gtf (valid_contigs : list string) (lines : list gtf_line)
  : list gene_base :=
  let gtf := import_gtf valid_contigs lines in
  let gtf := filter is_basic_cds gtf in
  let gtf := flat_map explode_locus gtf in
  distinct gtf.

(** ** The per-base join *)

Record mappability_row : Type := { duke_35_map : option Q }.

(** A row of the joined table: the gene-model row, the coverage structs by
    field name, the mappability. *)
Record cov_base : Type := {
  b_gene_id : string;
  b_locus : locus;
  b_gene_name : string;
  b_cov : list (string * option coverage_struct);
  mappability : option Q
}.

(** The joined table with the names of its row fields outside the key
    ([list(cov.row_value)]). *)
Record base_table : Type := {
  row_value : list string;
  bt_rows : list cov_base
}.

(** [t[l]]: the row of a locus-keyed table, missing when it has none. *)
Fixpoint index_locus {A : Type} (t : list (locus * A)) (l : locus) : option A :=
  match t with
  | [] => None
  | (k, v) :: t' => if locus_eqb k l then Some v else index_locus t' l
  end.

(** [**t[l]]: every field of the row, each missing when the row is. *)
Definition splat (t : cov_table) (l : locus) : list (string * option coverage_struct) :=
  match index_locus (cov_rows t) l with
  | Some fields => map (fun f => (f, lookup f fields)) (cov_fields t)
  | None => map (fun f => (f, None)) (cov_fields t)
  end.

Definition hl_field {A B : Type} (f : A -> option B) (r : option A) : option B :=
  match r with
  | Some a => f a
  | None => None
  end.

Section PerBase.

Variable in_autosome_or_par : locus -> bool.

Definition compute_per_base_cds_coverage
  (genomes_mt exomes_mt : matrix_table)
  (ucsc_mappability : list (locus * mappability_row))
  (valid_contigs : list string) (gtf_lines : list gtf_line)
  : result base_table :=
  genomes_cov <- get_cov_ht in_autosome_or_par "genomes" genomes_mt ;;
  exomes_cov <- get_cov_ht in_autosome_or_par "exomes" exomes_mt ;;
  let gtf := import_cds_from_gtf valid_contigs gtf_lines in
  OK {| row_value :=
          List.app ["gene_name"]
            (List.app (cov_fields exomes_cov) (List.app (cov_fields genomes_cov) ["mappability"]));
        bt_rows :=
          map (fun g =>
                 {| b_gene_id := g_gene_id g;
                    b_locus := g_locus g;
                    b_gene_name := g_gene_name g;
                    b_cov := List.app (splat exomes_cov (g_locus g))
                                 (splat genomes_cov (g_locus g));
                    mappability :=
                      hl_field duke_35_map (index_locus ucsc_mappability (g_locus g)) |})
              gtf |}.

End PerBase.

(** ** The per-gene export *)

Definition min_good_coverage_dp : string := "over_10.0".
Definition min_good_coverage_prop : Q := 8 # 10.

(** [x.split(sep)] on a one-character separator. *)
Fixpoint py_split (sep : ascii) (s : string) : list string :=
  match s with
  | EmptyString => [EmptyString]
  | String c s' =>
      if Ascii.eqb c sep
      then EmptyString :: py_split sep s'
      else match py_split sep s' with
           | [] => [String c EmptyString]
           | w :: ws => String c w :: ws
           end
  end.

Definition underscore : ascii := "_"%char.

(** [s[name]] on a nullable struct: missing when the struct is. *)
Definition cs_field (name : string) (s : option coverage_struct) : option Q :=
  match s with
  | Some s' =>
      match lookup name (cs_over s') with
      | Some v => v
      | None => None
      end
  | None => None
  end.

(** [cov[x]]: the struct-valued row field [x]. *)
Definition row_field (x : string) (r : cov_base) : option coverage_struct :=
  match lookup x (b_cov r) with
  | Some s => s
  | None => None
  end.

(** [>=] of a nullable number with a constant. *)
Definition hl_ge (a : option Q) (b : Q) : option bool :=
  option_map (fun v => Qle_bool b v) a.

Record cov_stat : Type := {
  data_type : string;
  platform : string;
  frac_well_covered_bases : option Q;
  mean_well_covered_samples : option Q
}.

(** A row of the exported table. *)
Record gene_summary : Type := {
  s_gene_id : string;
  s_gene_name : option string;
  gene_interval : option hl_interval;
  mean_mappability : option Q;
  median_mappability : option Q;
  s_stat : cov_stat
}.

(** [hl.filter_intervals(cov, [hl.parse_locus_interval('Y')], keep=False)]:
    the interval is the whole contig. *)
Definition filter_out_Y (t : list cov_base) : list cov_base :=
  filter (fun r => negb (String.eqb (contig (b_locus r)) "Y")) t.

(** [group_by(cov.gene_id)]: the gene ids, each once, and per id its rows. *)
Definition group_keys (t : list cov_base) : list string :=
  nodup string_dec (map b_gene_id t).

Definition group_rows (g : string) (t : list cov_base) : list cov_base :=
  filter (fun r => String.eqb (b_gene_id r) g) t.

(** [hl.interval(hl.locus(c, lo), hl.locus(c, hi))], missing when a part is. *)
Definition hl_interval_of (c : option string) (lo hi : option Z) : option hl_interval :=
  match c, lo, hi with
  | Some c', Some lo', Some hi' =>
      Some {| i_start := {| contig := c'; position := lo' |};
              i_end := {| contig := c'; position := hi' |};
              includes_start := true;
              includes_end := false |}
  | _, _, _ => None
  end.

Section GeneExport.

(** [hl.agg.approx_quantiles(x, 0.5)], an approximation of the engine. *)
Variable approx_median : list (option Q) -> option Q.

(** The struct of one coverage field [x] over the rows of a gene. *)
Definition cov_stat_of (x : string) (grp : list cov_base) : cov_stat :=
  {| data_type := hd EmptyString (py_split underscore x);
     platform := String.concat "_" (tl (py_split underscore x));
     frac_well_covered_bases :=
       agg_fraction
         (map (fun r => hl_ge (cs_field min_good_coverage_dp (row_field x r))
                              min_good_coverage_prop) grp);
     mean_well_covered_samples :=
       agg_mean (map (fun r => cs_field min_good_coverage_dp (row_field x r)) grp) |}.

Definition is_cov_field (x : string) : bool :=
  String.prefix "exomes" x || String.prefix "genomes" x.

(** The aggregation of one group, then [explode('cov_stats')]: one row
    per coverage field. *)
Definition summarize_gene (fields : list string) (g : string) (grp : list cov_base)
  : list gene_summary :=
  let cov_stats := map (fun x => cov_stat_of x grp) (filter is_cov_field fields) in
  map (fun st =>
         {| s_gene_id := g;
            s_gene_name := agg_take1 (map b_gene_name grp);
            gene_interval :=
              hl_interval_of
                (agg_take1 (map (fun r => contig (b_locus r)) grp))
                (agg_min (map (fun r => position (b_locus r)) grp))
                (agg_max (map (fun r => position (b_locus r)) grp));
            mean_mappability := agg_mean (map mappability grp);
            median_mappability := approx_median (map mappability grp);
            s_stat := st |})
      cov_stats.

Definition export_gene_coverage (cov : base_table) : list gene_summary :=
  let rows := filter_out_Y (bt_rows cov) in
  flat_map (fun g => summarize_gene (row_value cov) g (group_rows g rows))
           (group_keys rows).

End GeneExport.

(** ** The quantities the specification names *)

(** Σ over the samples of a row. *)
Definition sum_over (g : col * entry -> Q) (mt : scope) : Q :=
  fold_right (fun ce acc => (g ce + acc)%Q) 0%Q mt.

(** Σ(n_i) *)
Definition total_n (mt : scope) : Q := sum_over q_n mt.

(** The sample-count-weighted mean of the per-sample means. *)
Definition weighted_mean (mt : scope) : Q :=
  (sum_over (fun ce => mean (snd ce) * q_n ce) mt / total_n mt)%Q.

(** The value of a sample at a threshold column; a sample without the
    value adds nothing to a sum. *)
Definition value_at (name : string) (ce : col * entry) : Q :=
  match lookup name (over (snd ce)) with
  | Some v => v
  | None => 0%Q
  end.

(** Fraction over the reported threshold [i/2] on a non-PAR locus, as the
    code blends it: a male sample by its column at [i/2], any other sample
    by its column at [i]. *)
Definition haploid_fraction_over (i : nat) (mt : scope) : Q :=
  (sum_over (fun ce => if is_male ce then value_at (over_half i) ce
                       else value_at (over_full i) ce) mt
   / total_n mt)%Q.

(** The same fraction as the specification words it: a male sample by the
    full threshold, any other sample by the half threshold. *)
Definition spec_fraction_over (i : nat) (mt : scope) : Q :=
  (sum_over (fun ce => if is_male ce then value_at (over_full i) ce
                       else value_at (over_half i) ce) mt
   / total_n mt)%Q.

(** The entry schema has the column of every full threshold. *)
Definition has_full_columns (schema : list string) : Prop :=
  forall i, In i thresholds -> str_in (over_full i) schema = true.

(** The [over_] columns of the schema are the full-threshold ones and no
    other. *)
Definition only_full_columns (schema : list string) : Prop :=
  forall name, str_in name schema = true -> String.prefix "over_" name = true ->
               In name (map over_full thresholds).

(** The fields of the reported set T as the specification lists it:
    0.5, 1, 2.5, 5, 7.5, ..., 15, 25, 50. *)
Definition spec_reported_fields : list string :=
  ["over_0.5"; "over_1.0"; "over_2.5"; "over_5.0"; "over_7.5"; "over_10.0";
   "over_12.5"; "over_15.0"; "over_25.0"; "over_50.0"].

(** The halves of 1, 5, 10, ..., 30, 50, 100. *)
Definition reported_fields : list string :=
  ["over_0.5"; "over_2.5"; "over_5.0"; "over_7.5"; "over_10.0";
   "over_12.5"; "over_15.0"; "over_25.0"; "over_50.0"].

Definition is_null {A : Type} (v : option A) : bool :=
  match v with
  | None => true
  | Some _ => false
  end.

(** The positions an interval contains. *)
Definition interval_positions (iv : hl_interval) : list Z :=
  hl_range
    (if includes_start iv then position (i_start iv) else position (i_start iv) + 1)
    (if includes_end iv then position (i_end iv) + 1 else position (i_end iv)).

(** The number of bases an interval covers. *)
Definition interval_length (iv : hl_interval) : nat :=
  List.length (interval_positions iv).

(** The rows of a table at one key. *)
Definition at_key (l : locus) (g : string) (r : gene_base) : bool :=
  locus_eqb (g_locus r) l && String.eqb (g_gene_id r) g.

Definition rows_at (l : locus) (g : string) (t : list gene_base) : list gene_base :=
  filter (at_key l g) t.

(** The rows of a table at one locus. *)
Definition rows_at_locus (l : locus) (t : list gene_base) : list gene_base :=
  filter (fun r => locus_eqb (g_locus r) l) t.

(** The field one threshold contributes to the struct of an autosomal or
    PAR locus, and to the struct of any other locus, once built. *)
Definition diploid_field (i : nat) : string * (scope -> option Q) :=
  (over_half i,
   fun mt : scope =>
     Some (agg_sum (map (fun ce => lookup (over_full i) (over (snd ce))) mt)
           / agg_sum (map (fun ce => Some (q_n ce)) mt))%Q).

Definition haploid_field (schema : list string) (i : nat) : string * (scope -> option Q) :=
  (over_half i,
   if negb (str_in (over_half i) schema)
   then fun _ : scope => @None Q
   else
     fun mt : scope =>
       Some (agg_sum (map (fun ce =>
                             hl_cond (Some (is_male ce))
                               (lookup (over_half i) (over (snd ce)))
                               (lookup (over_full i) (over (snd ce)))) mt)
             / agg_sum (map (fun ce => Some (q_n ce)) mt))%Q).

(** The value of the expression once it is built: the struct of the branch
    the locus selects. *)
Definition built_struct (iap : locus -> bool) (schema : list string)
  : locus -> scope -> coverage_struct :=
  fun (l : locus) (mt : scope) =>
    if iap l
    then
      {| cs_mean :=
           Some (half * agg_sum (map (fun ce => Some (mean (snd ce) * q_n ce)) mt)
                 / agg_sum (map (fun ce => Some (q_n ce)) mt))%Q;
         cs_median :=
           option_map (Qmult half)
             (hl_median (agg_collect (map (fun ce => Some (median (snd ce))) mt)));
         cs_over := map (fun nf => (fst nf, snd nf mt)) (map diploid_field thresholds) |}
    else
      {| cs_mean :=
           Some (agg_sum (map (fun ce =>
                                 hl_cond (Some (is_male ce))
                                   (Some (mean (snd ce) * q_n ce))
                                   (Some (half * mean (snd ce) * q_n ce))) mt)
                 / agg_sum (map (fun ce => Some (q_n ce)) mt))%Q;
         cs_median :=
           hl_median (agg_collect (map (fun ce =>
                                          hl_cond (Some (is_male ce))
                                            (Some (median (snd ce)))
                                            (Some (half * median (snd ce))%Q)) mt));
         cs_over := map (fun nf => (fst nf, snd nf mt))
                        (map (haploid_field schema) thresholds) |}.

(** ** Inputs of the examples *)

(** GRCh37: the pseudo-autosomal regions of X and Y; the sex and
    mitochondrial contigs are the only ones that are not autosomal. *)
Definition grch37_in_autosome_or_par (l : locus) : bool :=
  let p := position l in
  if String.eqb (contig l) "X"
  then ((60001 <=? p) && (p <=? 2699520)) || ((154931044 <=? p) && (p <=? 155260560))
  else if String.eqb (contig l) "Y"
  then ((10001 <=? p) && (p <=? 2649520)) || ((59034050 <=? p) && (p <=? 59363566))
  else negb (String.eqb (contig l) "MT").

Definition full_schema : list string :=
  ["mean"; "median"; "n"; "over_1.0"; "over_5.0"; "over_10.0"; "over_15.0";
   "over_20.0"; "over_25.0"; "over_30.0"; "over_50.0"; "over_100.0"].

Definition chrX_nonpar : locus := {| contig := "X"; position := 5000000 |}.
Definition chr1_locus : locus := {| contig := "1"; position := 1000 |}.

(** One male and one female group on one platform. *)
Definition males : col * entry :=
  ({| qc_platform := "agilent"; sex := "male" |},
   {| mean := 30; median := 28; n := 10;
      over := [("over_1.0", 10); ("over_5.0", 8); ("over_10.0", 4); ("over_15.0", 3);
               ("over_20.0", 2); ("over_25.0", 1); ("over_30.0", 1); ("over_50.0", 0);
               ("over_100.0", 0)]%Q |}).

Definition females : col * entry :=
  ({| qc_platform := "agilent"; sex := "female" |},
   {| mean := 40; median := 42; n := 5;
      over := [("over_1.0", 5); ("over_5.0", 5); ("over_10.0", 5); ("over_15.0", 4);
               ("over_20.0", 4); ("over_25.0", 3); ("over_30.0", 3); ("over_50.0", 1);
               ("over_100.0", 0)]%Q |}).

Definition two_groups : scope := [males; females].

(** A CDS line of a basic protein-coding transcript on chromosome 1. *)
Definition cds_line (gene name : string) (first last : Z) : gtf_line :=
  {| seqname := "chr1";
     l_feature := "CDS";
     l_start := first;
     l_end := last;
     l_transcript_type := Some "protein_coding";
     l_tag := Some "basic";
     l_gene_id := gene;
     l_gene_name := name |}.

Definition chr1_at (p : Z) : locus := {| contig := "1"; position := p |}.

Definition base_of (gene name : string) (p : Z) : gene_base :=
  {| g_gene_id := gene; g_locus := chr1_at p; g_gene_name := name |}.

(** A coverage matrix with the two example groups as columns and one row,
    at base 100 of chromosome 1; a mappability table with the same base. *)
Definition example_mt : matrix_table :=
  {| entry_schema := full_schema;
     cols := [fst males; fst females];
     rows := [(chr1_at 100, [snd males; snd females])] |}.

Definition example_mappability : list (locus * mappability_row) :=
  [(chr1_at 100, {| duke_35_map := Some 1%Q |})].

(** A joined table: three bases of one gene on chromosome 1, the last
    without coverage, and one base of another gene on Y. *)
Definition struct_over_10 (v : Q) : coverage_struct :=
  {| cs_mean := Some 20%Q; cs_median := Some 20%Q; cs_over := [("over_10.0", Some v)] |}.

Definition joined_row (gene name : string) (l : locus) (s : option coverage_struct)
  : cov_base :=
  {| b_gene_id := gene;
     b_locus := l;
     b_gene_name := name;
     b_cov := [("exomes_all", s); ("genomes_all", s)];
     mappability := Some 1%Q |}.

Definition example_joined : base_table :=
  {| row_value := ["gene_name"; "exomes_all"; "genomes_all"; "mappability"];
     bt_rows :=
       [joined_row "ENSG1" "G1" (chr1_at 100) (Some (struct_over_10 (9 # 10)));
        joined_row "ENSGY" "GY" {| contig := "Y"; position := 5000 |}
                   (Some (struct_over_10 (9 # 10)));
        joined_row "ENSG1" "G1" (chr1_at 102) None;
        joined_row "ENSG1" "G1" (chr1_at 101) (Some (struct_over_10 (5 # 10)))] |}.

(** One CDS of three bases, 100 to 102. *)
Definition one_cds : list gtf_line := [cds_line "ENSG1" "G1" 100 102].

(** Two CDS of one gene that overlap on 101 and 102. *)
Definition same_gene_cds : list gtf_line :=
  [cds_line "ENSG1" "G1" 100 102; cds_line "ENSG1" "G1" 101 102].

(** The CDS of two genes that overlap on 101 and 102. *)
Definition two_gene_cds : list gtf_line :=
  [cds_line "ENSG1" "G1" 100 102; cds_line "ENSG2" "G2" 101 102].

(** ** The script *)

(** The two flags of the command line. *)
Record args : Type := {
  arg_compute_per_base_cds_coverage : bool;
  arg_export_gene_coverage : bool
}.

(** The globals the export annotates its table with. *)
Record export_globals : Type := {
  g_min_good_coverage_prop : Q;
  g_min_good_coverage_dp : string
}.

(** What the script reads and never writes: the two grouped coverage
    matrices, the mappability table, the GTF and the contigs of GRCh37. *)
Record inputs : Type := {
  genomes_coverage_mt : matrix_table;
  exomes_coverage_mt : matrix_table;
  ucsc_mappability_ht : list (locus * mappability_row);
  gencode_gtf : list gtf_line;
  grch37_contigs : list string
}.

(** What the script writes: standard output and the contents of the three
    paths, the checkpoint [gencode_grch37.gene_by_base.ht], the joined table
    [gencode_grch37.gene_by_base.cov.ht] and the exported summary; a path
    that holds nothing is [None]. *)
Record world : Type := {
  stdout : list string;
  gene_by_base_ht : option (list gene_base);
  gene_by_base_cov_ht : option base_table;
  summary_tsv : option (export_globals * list gene_summary)
}.

(** A computation on the world that may raise; what it did before raising
    stays done. *)
Definition run (A : Type) : Type := world -> world * result A.

Definition run_ret {A : Type} (a : A) : run A := fun w => (w, OK a).

Definition run_bind {A B : Type} (m : run A) (k : A -> run B) : run B :=
  fun w =>
    match m w with
    | (w', OK a) => k a w'
    | (w', Err msg) => (w', Err msg)
    end.

Definition py_print (line : string) : run unit :=
  fun w =>
    ({| stdout := List.app (stdout w) [line];
        gene_by_base_ht := gene_by_base_ht w;
        gene_by_base_cov_ht := gene_by_base_cov_ht w;
        summary_tsv := summary_tsv w |}, OK tt).

Section Script.

Variable in_autosome_or_par : locus -> bool.
Variable approx_median : list (option Q) -> option Q.
Variable inp : inputs.

(** [compute_per_base_cds_coverage()] on the world: the coverage tables
    are built first, so a schema that lacks a column raises before anything
    is written; then the gene model is checkpointed and the joined table
    written, over what the paths held. *)
Definition compute_per_base_cds_coverage_stage : run unit :=
  fun w =>
    match compute_per_base_cds_coverage in_autosome_or_par
            (genomes_coverage_mt inp) (exomes_coverage_mt inp)
            (ucsc_mappability_ht inp) (grch37_contigs inp) (gencode_gtf inp) with
    | Err msg => (w, Err msg)
    | OK t =>
        ({| stdout := stdout w;
            gene_by_base_ht :=
              Some (import_cds_from_gtf (grch37_contigs inp) (gencode_gtf inp));
            gene_by_base_cov_ht := Some t;
            summary_tsv := summary_tsv w |}, OK tt)
    end.

(** [export_gene_coverage()] on the world: [hl.read_table] of the joined
    table raises when the path holds nothing. *)
Definition export_gene_coverage_stage : run unit :=
  fun w =>
    match gene_by_base_cov_ht w with
    | None => (w, Err "hl.read_table: no table at gencode_grch37.gene_by_base.cov.ht")
    | Some cov =>
        ({| stdout := stdout w;
            gene_by_base_ht := gene_by_base_ht w;
            gene_by_base_cov_ht := gene_by_base_cov_ht w;
            summary_tsv :=
              Some ({| g_min_good_coverage_prop := min_good_coverage_prop;
                       g_min_good_coverage_dp := min_good_coverage_dp |},
                    export_gene_coverage approx_median cov) |}, OK tt)
    end.

Definition main (a : args) : run unit :=
  run_bind
    (if arg_compute_per_base_cds_coverage a
     then run_bind (py_print "Computing per-base CDS coverage")
                   (fun _ => compute_per_base_cds_coverage_stage)
     else run_ret tt)
    (fun _ =>
       if arg_export_gene_coverage a
       then run_bind (py_print "Exporting gene coverage")
                     (fun _ => export_gene_coverage_stage)
       else run_ret tt).

End Script.

(** The inputs and a world of the examples: nothing written yet. *)
Definition example_inputs : inputs :=
  {| genomes_coverage_mt := example_mt;
     exomes_coverage_mt := example_mt;
     ucsc_mappability_ht := example_mappability;
     gencode_gtf := one_cds;
     grch37_contigs := ["1"] |}.

Definition empty_world : world :=
  {| stdout := []; gene_by_base_ht := None; gene_by_base_cov_ht := None;
     summary_tsv := None |}.

(** ** Further notions *)

(** Fraction over the reported threshold [i/2] with every sample read at the
    full threshold [i], and with every sample read at the half threshold. *)
Definition diploid_fraction_over (i : nat) (mt : scope) : Q :=
  (sum_over (value_at (over_full i)) mt / total_n mt)%Q.

Definition half_column_fraction_over (i : nat) (mt : scope) : Q :=
  (sum_over (value_at (over_half i)) mt / total_n mt)%Q.

(** The counts of a sample at the two columns of a threshold are counts of
    its [n] samples. *)
Definition counts_within_n (i : nat) (ce : col * entry) : Prop :=
  (0 <= value_at (over_full i) ce <= q_n ce)%Q /\
  (0 <= value_at (over_half i) ce <= q_n ce)%Q.

(** The key of a gene-model row. *)
Definition row_key (r : gene_base) : locus * string := (g_locus r, g_gene_id r).

(** A GTF line that the import and the filter keep: on a contig of the
    reference, a CDS of a protein-coding transcript tagged basic. *)
Definition kept_line (valid_contigs : list string) (ln : gtf_line) : Prop :=
  In (strip_chr (seqname ln)) valid_contigs /\
  l_feature ln = "CDS" /\
  l_transcript_type ln = Some "protein_coding" /\
  l_tag ln = Some "basic".

(** The loci a line is exploded into: on its contig, from its start up to
    the base before its end. *)
Definition exploded_to (ln : gtf_line) (l : locus) : Prop :=
  contig l = strip_chr (seqname ln) /\ l_start ln <= position l < l_end ln.

(** * Properties *)

(** ** Building the struct *)

Lemma thresholds_eq : thresholds = [1; 5; 10; 15; 20; 25; 30; 50; 100]%nat.
Proof. reflexivity. Qed.

Lemma mapM_ok (A B : Type) (f : A -> result B) (g : A -> B) (l : list A) :
  (forall a, In a l -> f a = OK (g a)) -> mapM f l = OK (map g l).
Proof.
  induction l as [|a l IH]; intros Hf; simpl.
  - reflexivity.
  - rewrite (Hf a (or_introl eq_refl)). simpl.
    rewrite IH by (intros b Hb; apply Hf; right; exact Hb).
    reflexivity.
Qed.

Lemma bind_ok_inv (A B : Type) (r : result A) (k : A -> result B) (b : B) :
  bind r k = OK b -> exists a, r = OK a /\ k a = OK b.
Proof.
  destruct r as [a|m]; simpl; intros H; [|discriminate].
  exists a. split; [reflexivity | exact H].
Qed.

Lemma mapM_fst (A B : Type) (f : A -> result (string * B)) (name : A -> string)
      (l : list A) (bs : list (string * B)) :
  (forall a b, f a = OK b -> fst b = name a) ->
  mapM f l = OK bs -> map fst bs = map name l.
Proof.
  intros Hname. revert bs.
  induction l as [|a l IH]; intros bs; simpl.
  - intros H. inversion H. reflexivity.
  - destruct (f a) as [b|m] eqn:Hb; simpl; [|discriminate].
    destruct (mapM f l) as [bs'|m] eqn:Hbs; simpl; [|discriminate].
    intros H. inversion H. subst bs. simpl.
    rewrite (Hname a b Hb), (IH bs' eq_refl). reflexivity.
Qed.

Lemma mt_field_ok (schema : list string) (name : string) :
  str_in name schema = true ->
  mt_field schema name = OK (fun ce => lookup name (over (snd ce))).
Proof. intros H. unfold mt_field. rewrite H. reflexivity. Qed.

(** With the full-threshold columns in the schema the expression builds,
    and its value is the struct of the selected branch. *)
Lemma get_haploid_coverage_struct_ok (iap : locus -> bool) (schema : list string) :
  has_full_columns schema ->
  get_haploid_coverage_struct iap schema = OK (built_struct iap schema).
Proof.
  intros Hfull. unfold get_haploid_coverage_struct.
  rewrite (mapM_ok _ diploid_field).
  2:{ intros i Hi. rewrite (mt_field_ok _ _ (Hfull i Hi)). reflexivity. }
  cbn [bind].
  rewrite (mapM_ok _ (haploid_field schema)).
  2:{ intros i Hi. unfold haploid_field.
      destruct (str_in (over_half i) schema) eqn:Hh; simpl.
      - rewrite (mt_field_ok _ _ Hh), (mt_field_ok _ _ (Hfull i Hi)). reflexivity.
      - reflexivity. }
  reflexivity.
Qed.

(** Whatever the schema, a struct that is built has the nine halved
    thresholds as the names of its [over_] fields. *)
Lemma get_haploid_coverage_struct_names (iap : locus -> bool) (schema : list string)
      (s : locus -> scope -> coverage_struct) :
  get_haploid_coverage_struct iap schema = OK s ->
  forall l mt, map fst (cs_over (s l mt)) = reported_fields.
Proof.
  unfold get_haploid_coverage_struct. intros H l mt.
  apply bind_ok_inv in H. destruct H as (d & Hd & H).
  apply bind_ok_inv in H. destruct H as (h & Hh & H).
  apply (mapM_fst _ over_half) in Hd.
  2:{ intros i b. destruct (mt_field schema (over_full i)); simpl; [|discriminate].
      intros E. inversion E. reflexivity. }
  apply (mapM_fst _ over_half) in Hh.
  2:{ intros i b. destruct (negb (str_in (over_half i) schema)).
      - intros E. inversion E. reflexivity.
      - destruct (mt_field schema (over_half i)); simpl; [|discriminate].
        destruct (mt_field schema (over_full i)); simpl; [|discriminate].
        intros E. inversion E. reflexivity. }
  inversion H. subst s.
  destruct (iap l); simpl; rewrite map_map; simpl.
  - exact Hd.
  - exact Hh.
Qed.

Lemma in_thresholds_cases (P : nat -> Prop) :
  P 1%nat -> P 5%nat -> P 10%nat -> P 15%nat -> P 20%nat -> P 25%nat ->
  P 30%nat -> P 50%nat -> P 100%nat ->
  forall i, In i thresholds -> P i.
Proof.
  intros H1 H5 H10 H15 H20 H25 H30 H50 H100 i Hi.
  rewrite thresholds_eq in Hi. simpl in Hi.
  repeat (destruct Hi as [<-|Hi]; [assumption|]). contradiction.
Qed.

Lemma lookup_haploid_field (schema : list string) (mt : scope) (i : nat) :
  In i thresholds ->
  lookup (over_half i)
         (map (fun nf => (fst nf, snd nf mt)) (map (haploid_field schema) thresholds))
  = Some (snd (haploid_field schema i) mt).
Proof.
  revert i. apply in_thresholds_cases; reflexivity.
Qed.

Lemma lookup_diploid_field (mt : scope) (i : nat) :
  In i thresholds ->
  lookup (over_half i)
         (map (fun nf => (fst nf, snd nf mt)) (map diploid_field thresholds))
  = Some (snd (diploid_field i) mt).
Proof.
  revert i. apply in_thresholds_cases; reflexivity.
Qed.

(** ** Sums *)

Lemma agg_sum_some (g : col * entry -> Q) (mt : scope) :
  agg_sum (map (fun ce => Some (g ce)) mt) = sum_over g mt.
Proof.
  induction mt as [|ce mt IH]; simpl; [reflexivity | rewrite IH; reflexivity].
Qed.

Lemma agg_sum_default (f : col * entry -> option Q) (mt : scope) :
  (agg_sum (map f mt) ==
   sum_over (fun ce => match f ce with Some v => v | None => 0 end) mt)%Q.
Proof.
  induction mt as [|ce mt IH]; simpl.
  - reflexivity.
  - destruct (f ce) as [v|]; rewrite IH.
    + reflexivity.
    + symmetry. apply Qplus_0_l.
Qed.

Lemma sum_over_ext (g h : col * entry -> Q) (mt : scope) :
  (forall ce, (g ce == h ce)%Q) -> (sum_over g mt == sum_over h mt)%Q.
Proof.
  intros E. induction mt as [|ce mt IH]; simpl.
  - reflexivity.
  - rewrite (E ce), IH. reflexivity.
Qed.

Lemma agg_sum_n (mt : scope) :
  agg_sum (map (fun ce => Some (q_n ce)) mt) = total_n mt.
Proof. apply agg_sum_some. Qed.

(** ** The haploid-adjusted struct *)

Lemma hl_cond_some (A : Type) (b : bool) (x y : A) :
  hl_cond (Some b) (Some x) (Some y) = Some (if b then x else y).
Proof. destruct b; reflexivity. Qed.

(** C2.  On an autosomal or PAR locus the adjusted mean is half the
    sample-count-weighted mean of the per-sample means and the adjusted
    median is half the median of the per-sample medians; on any other locus
    the mean is Σ(male: mean_i × n_i; other: 0.5 × mean_i × n_i) / Σ(n_i)
    and the median is the median of (male: median_i; other: 0.5 × median_i). *)
Theorem haploid_mean_and_median (iap : locus -> bool) (schema : list string) :
  has_full_columns schema ->
  exists s,
    get_haploid_coverage_struct iap schema = OK s /\
    forall (l : locus) (mt : scope),
      (iap l = true ->
       (exists v, cs_mean (s l mt) = Some v /\ (v == half * weighted_mean mt)%Q) /\
       cs_median (s l mt)
       = option_map (Qmult half) (hl_median (map (fun ce => Some (median (snd ce))) mt)))
      /\
      (iap l = false ->
       (exists v,
           cs_mean (s l mt) = Some v /\
           (v == sum_over (fun ce => if is_male ce then mean (snd ce) * q_n ce
                                     else half * (mean (snd ce) * q_n ce)) mt
                 / total_n mt)%Q) /\
       cs_median (s l mt)
       = hl_median (map (fun ce => Some (if is_male ce then median (snd ce)
                                         else half * median (snd ce))%Q) mt)).
Proof.
  intros Hfull. eexists. split.
  - apply get_haploid_coverage_struct_ok. exact Hfull.
  - intros l mt. unfold built_struct.
    split; intros Hl; rewrite Hl; cbn [cs_mean cs_median]; split.
    + eexists. split; [reflexivity|].
      rewrite agg_sum_some, agg_sum_n. unfold weighted_mean, Qdiv. ring.
    + reflexivity.
    + eexists. split; [reflexivity|].
      rewrite agg_sum_n. apply Qdiv_comp; [|reflexivity].
      rewrite agg_sum_default. apply sum_over_ext. intros ce.
      rewrite hl_cond_some. destruct (is_male ce); [reflexivity | ring].
    + unfold agg_collect. f_equal. apply map_ext. intros ce.
      apply hl_cond_some.
Qed.

(** C1, as the code has it.  On a non-PAR locus, for a threshold whose
    half-threshold column is in the schema, the fraction over the reported
    threshold is Σ(male: value of the half-threshold column; other: value
    of the full-threshold column) / Σ(n_i). *)
Theorem haploid_fraction_over_blend (iap : locus -> bool) (schema : list string) (i : nat) :
  has_full_columns schema ->
  In i thresholds ->
  str_in (over_half i) schema = true ->
  exists s,
    get_haploid_coverage_struct iap schema = OK s /\
    forall (l : locus) (mt : scope),
      iap l = false ->
      exists v,
        lookup (over_half i) (cs_over (s l mt)) = Some (Some v) /\
        (v == haploid_fraction_over i mt)%Q.
Proof.
  intros Hfull Hi Hhalf. eexists. split.
  - apply get_haploid_coverage_struct_ok. exact Hfull.
  - intros l mt Hl. unfold built_struct. rewrite Hl. cbn [cs_over].
    rewrite (lookup_haploid_field schema mt Hi).
    unfold haploid_field. rewrite Hhalf. cbn [negb snd].
    eexists. split; [reflexivity|].
    rewrite agg_sum_n. unfold haploid_fraction_over.
    apply Qdiv_comp; [|reflexivity].
    rewrite agg_sum_default. apply sum_over_ext. intros ce.
    unfold value_at. destruct (is_male ce); reflexivity.
Qed.

(** C4.  On a non-PAR locus a reported threshold whose half-threshold
    column the schema lacks is a field of the struct, and that field is
    missing: the expression builds, and the value is neither zero nor
    absent. *)
Theorem missing_half_column_is_null (iap : locus -> bool) (schema : list string) (i : nat) :
  has_full_columns schema ->
  In i thresholds ->
  str_in (over_half i) schema = false ->
  exists s,
    get_haploid_coverage_struct iap schema = OK s /\
    forall (l : locus) (mt : scope),
      iap l = false ->
      lookup (over_half i) (cs_over (s l mt)) = Some None.
Proof.
  intros Hfull Hi Hhalf. eexists. split.
  - apply get_haploid_coverage_struct_ok. exact Hfull.
  - intros l mt Hl. unfold built_struct. rewrite Hl. cbn [cs_over].
    rewrite (lookup_haploid_field schema mt Hi).
    unfold haploid_field. rewrite Hhalf. reflexivity.
Qed.

(** C5, as the code has it.  The struct has one fraction-over field per
    halved source threshold, 0.5, 2.5, 5, 7.5, 10, 12.5, 15, 25 and 50, and
    no other. *)
Theorem struct_fields_are_halved_thresholds (iap : locus -> bool) (schema : list string) :
  has_full_columns schema ->
  exists s,
    get_haploid_coverage_struct iap schema = OK s /\
    forall (l : locus) (mt : scope),
      map fst (cs_over (s l mt)) = reported_fields /\
      reported_fields = map over_half thresholds /\
      NoDup reported_fields.
Proof.
  intros Hfull.
  destruct (get_haploid_coverage_struct iap schema) as [s|m] eqn:Hs.
  2:{ rewrite (get_haploid_coverage_struct_ok iap Hfull) in Hs. discriminate. }
  exists s. split; [reflexivity|]. intros l mt. split; [|split].
  - exact (get_haploid_coverage_struct_names iap schema Hs l mt).
  - reflexivity.
  - unfold reported_fields.
    repeat (constructor; [simpl; intuition discriminate|]). constructor.
Qed.

Lemma str_in_In (x : string) (l : list string) : str_in x l = true <-> In x l.
Proof.
  unfold str_in. rewrite existsb_exists. split.
  - intros (y & Hy & E). apply String.eqb_eq in E. subst y. exact Hy.
  - intros H. exists x. split; [exact H | apply String.eqb_refl].
Qed.

(** A half-threshold name that is also a full-threshold name is in the
    schema; one that is not is absent from a schema that has no other
    [over_] columns than the full-threshold ones. *)
Lemma half_columns_of_full_schema (schema : list string) :
  has_full_columns schema ->
  only_full_columns schema ->
  map (fun i => str_in (over_half i) schema) thresholds
  = [false; false; true; false; true; false; true; true; true].
Proof.
  intros Hfull Honly.
  assert (Habsent : forall name,
             String.prefix "over_" name = true ->
             ~ In name (map over_full thresholds) ->
             str_in name schema = false).
  { intros name Hp Hn. destruct (str_in name schema) eqn:E; [|reflexivity].
    exfalso. apply Hn. apply Honly; assumption. }
  assert (Hnot : forall name,
             str_in name (map over_full thresholds) = false ->
             ~ In name (map over_full thresholds)).
  { intros name E Hin. apply str_in_In in Hin. congruence. }
  rewrite thresholds_eq. cbn [map].
  rewrite (Habsent (over_half 1)) by (reflexivity || (apply Hnot; reflexivity)).
  rewrite (Habsent (over_half 5)) by (reflexivity || (apply Hnot; reflexivity)).
  rewrite (Habsent (over_half 15)) by (reflexivity || (apply Hnot; reflexivity)).
  rewrite (Habsent (over_half 25)) by (reflexivity || (apply Hnot; reflexivity)).
  change (over_half 10) with (over_full 5).
  change (over_half 20) with (over_full 10).
  change (over_half 30) with (over_full 15).
  change (over_half 50) with (over_full 25).
  change (over_half 100) with (over_full 50).
  rewrite !Hfull by (rewrite thresholds_eq; simpl; intuition auto).
  reflexivity.
Qed.

(** C10.  With the nine full-threshold columns as the only [over_] columns
    of the schema, on a non-PAR locus the fields at 0.5, 2.5, 7.5 and 12.5
    are the missing ones and the fields at 5, 10, 15, 25 and 50 are
    computed; so is the field the per-gene export reads. *)
Theorem full_schema_null_fields (iap : locus -> bool) (schema : list string) :
  has_full_columns schema ->
  only_full_columns schema ->
  exists s,
    get_haploid_coverage_struct iap schema = OK s /\
    forall (l : locus) (mt : scope),
      iap l = false ->
      map fst (filter (fun nf => is_null (snd nf)) (cs_over (s l mt)))
      = ["over_0.5"; "over_2.5"; "over_7.5"; "over_12.5"] /\
      map fst (filter (fun nf => negb (is_null (snd nf))) (cs_over (s l mt)))
      = ["over_5.0"; "over_10.0"; "over_15.0"; "over_25.0"; "over_50.0"] /\
      exists v, cs_field min_good_coverage_dp (Some (s l mt)) = Some v.
Proof.
  intros Hfull Honly. eexists. split.
  - apply get_haploid_coverage_struct_ok. exact Hfull.
  - intros l mt Hl. unfold built_struct. rewrite Hl. cbn [cs_over].
    pose proof (half_columns_of_full_schema Hfull Honly) as Hcols.
    rewrite thresholds_eq in Hcols |- *. cbn [map] in Hcols.
    injection Hcols as H1 H5 H10 H15 H20 H25 H30 H50 H100.
    unfold cs_field, haploid_field. cbn [map fst snd].
    rewrite H1, H5, H10, H15, H20, H25, H30, H50, H100.
    cbn [negb]. repeat split. eexists. reflexivity.
Qed.

Lemma full_schema_has_full_columns : has_full_columns full_schema.
Proof. unfold has_full_columns. apply in_thresholds_cases; reflexivity. Qed.

Lemma full_schema_only_full_columns : only_full_columns full_schema.
Proof.
  unfold only_full_columns, full_schema. intros name Hin Hp.
  apply str_in_In in Hin. simpl in Hin.
  repeat (destruct Hin as [<-|Hin]; [first [discriminate Hp | simpl; tauto]|]).
  contradiction.
Qed.

(** The blended mean of the two example groups on a non-PAR locus of X:
    (30 × 10 + 0.5 × 40 × 5) / (10 + 5). *)
Example mean_two_groups_chrX :
  exists s, get_haploid_coverage_struct grch37_in_autosome_or_par full_schema = OK s /\
            exists v, cs_mean (s chrX_nonpar two_groups) = Some v /\ (v == 400 # 15)%Q.
Proof.
  eexists. split; [reflexivity|]. eexists. split; [reflexivity|]. reflexivity.
Qed.

(** The same groups on an autosome: 0.5 × (30 × 10 + 40 × 5) / (10 + 5). *)
Example mean_two_groups_chr1 :
  exists s, get_haploid_coverage_struct grch37_in_autosome_or_par full_schema = OK s /\
            exists v, cs_mean (s chr1_locus two_groups) = Some v /\ (v == 250 # 15)%Q.
Proof.
  eexists. split; [reflexivity|]. eexists. split; [reflexivity|]. reflexivity.
Qed.

(** A schema without a full-threshold column: the expression does not build. *)
Example no_full_column_raises :
  get_haploid_coverage_struct grch37_in_autosome_or_par ["mean"; "median"; "n"; "over_1.0"]
  = Err "entry has no field over_5.0".
Proof. reflexivity. Qed.

Lemma haploid_mean_and_median_witness :
  exists s,
    get_haploid_coverage_struct grch37_in_autosome_or_par full_schema = OK s /\
    ((exists v, cs_mean (s chr1_locus two_groups) = Some v /\
                (v == half * weighted_mean two_groups)%Q) /\
     cs_median (s chr1_locus two_groups)
     = option_map (Qmult half)
         (hl_median (map (fun ce => Some (median (snd ce))) two_groups))) /\
    ((exists v,
         cs_mean (s chrX_nonpar two_groups) = Some v /\
         (v == sum_over (fun ce => if is_male ce then mean (snd ce) * q_n ce
                                   else half * (mean (snd ce) * q_n ce)) two_groups
               / total_n two_groups)%Q) /\
     cs_median (s chrX_nonpar two_groups)
     = hl_median (map (fun ce => Some (if is_male ce then median (snd ce)
                                       else half * median (snd ce))%Q) two_groups)).
Proof.
  destruct (@haploid_mean_and_median grch37_in_autosome_or_par full_schema)
    as (s & Hs & H).
  - unfold has_full_columns. apply in_thresholds_cases; reflexivity.
  - exists s. split; [exact Hs|]. split.
    + apply (proj1 (H chr1_locus two_groups)). reflexivity.
    + apply (proj2 (H chrX_nonpar two_groups)). reflexivity.
Defined.

Lemma haploid_fraction_over_blend_witness :
  exists s,
    get_haploid_coverage_struct grch37_in_autosome_or_par full_schema = OK s /\
    exists v,
      lookup (over_half 10) (cs_over (s chrX_nonpar two_groups)) = Some (Some v) /\
      (v == haploid_fraction_over 10 two_groups)%Q.
Proof.
  destruct (@haploid_fraction_over_blend grch37_in_autosome_or_par full_schema 10%nat)
    as (s & Hs & H).
  - unfold has_full_columns. apply in_thresholds_cases; reflexivity.
  - simpl. tauto.
  - reflexivity.
  - exists s. split; [exact Hs|]. apply H. reflexivity.
Defined.

(** C1 as worded fails.  One male and one female group on a non-PAR locus
    of X, reported threshold 5 (source threshold 10): the code gives
    (8 + 5) / 15, male by [over_5.0] and female by [over_10.0]; the worded
    blend, male by the full and female by the half threshold, is
    (4 + 5) / 15. *)
Lemma spec_fraction_over_differs :
  exists s v,
    get_haploid_coverage_struct grch37_in_autosome_or_par full_schema = OK s /\
    grch37_in_autosome_or_par chrX_nonpar = false /\
    lookup (over_half 10) (cs_over (s chrX_nonpar two_groups)) = Some (Some v) /\
    (v == 13 # 15)%Q /\
    (spec_fraction_over 10 two_groups == 9 # 15)%Q /\
    ~ (v == spec_fraction_over 10 two_groups)%Q.
Proof.
  eexists. eexists. split; [reflexivity|]. split; [reflexivity|].
  split; [reflexivity|]. split; [reflexivity|]. split; [reflexivity|].
  vm_compute. discriminate.
Qed.

Lemma missing_half_column_is_null_witness :
  exists s,
    get_haploid_coverage_struct grch37_in_autosome_or_par full_schema = OK s /\
    lookup (over_half 5) (cs_over (s chrX_nonpar two_groups)) = Some None.
Proof.
  destruct (@missing_half_column_is_null grch37_in_autosome_or_par full_schema 5%nat)
    as (s & Hs & H).
  - unfold has_full_columns. apply in_thresholds_cases; reflexivity.
  - simpl. tauto.
  - reflexivity.
  - exists s. split; [exact Hs|]. apply H. reflexivity.
Defined.

(** C5 as worded fails.  The worded set T has the threshold 1; the struct
    has no field for it, on whichever branch. *)
Lemma spec_reported_fields_differ :
  exists s,
    get_haploid_coverage_struct grch37_in_autosome_or_par full_schema = OK s /\
    In "over_1.0" spec_reported_fields /\
    ~ In "over_1.0" (map fst (cs_over (s chrX_nonpar two_groups))) /\
    ~ In "over_1.0" (map fst (cs_over (s chr1_locus two_groups))) /\
    map fst (cs_over (s chrX_nonpar two_groups)) <> spec_reported_fields.
Proof.
  eexists. split; [reflexivity|]. split; [simpl; tauto|]. split; [|split].
  - simpl. intuition discriminate.
  - simpl. intuition discriminate.
  - simpl. discriminate.
Qed.

Lemma struct_fields_are_halved_thresholds_witness :
  exists s,
    get_haploid_coverage_struct grch37_in_autosome_or_par full_schema = OK s /\
    forall (l : locus) (mt : scope),
      map fst (cs_over (s l mt)) = reported_fields /\
      reported_fields = map over_half thresholds /\
      NoDup reported_fields.
Proof.
  apply (struct_fields_are_halved_thresholds grch37_in_autosome_or_par (schema := full_schema)).
  unfold has_full_columns. apply in_thresholds_cases; reflexivity.
Defined.

Lemma full_schema_null_fields_witness :
  exists s,
    get_haploid_coverage_struct grch37_in_autosome_or_par full_schema = OK s /\
    map fst (filter (fun nf => is_null (snd nf)) (cs_over (s chrX_nonpar two_groups)))
    = ["over_0.5"; "over_2.5"; "over_7.5"; "over_12.5"] /\
    map fst (filter (fun nf => negb (is_null (snd nf))) (cs_over (s chrX_nonpar two_groups)))
    = ["over_5.0"; "over_10.0"; "over_15.0"; "over_25.0"; "over_50.0"] /\
    exists v, cs_field min_good_coverage_dp (Some (s chrX_nonpar two_groups)) = Some v.
Proof.
  destruct (@full_schema_null_fields grch37_in_autosome_or_par full_schema)
    as (s & Hs & H).
  - unfold has_full_columns. apply in_thresholds_cases; reflexivity.
  - exact full_schema_only_full_columns.
  - exists s. split; [exact Hs|]. apply H. reflexivity.
Defined.

(** ** The gene model *)

Lemma locus_eqb_eq (a b : locus) : locus_eqb a b = true <-> a = b.
Proof.
  unfold locus_eqb. rewrite andb_true_iff, String.eqb_eq, Z.eqb_eq.
  destruct a as [ca pa], b as [cb pb]; simpl. split.
  - intros [-> ->]. reflexivity.
  - intros E. inversion E. split; reflexivity.
Qed.

Lemma hl_range_length (a b : Z) : List.length (hl_range a b) = Z.to_nat (b - a).
Proof. unfold hl_range. rewrite length_map, length_seq. reflexivity. Qed.

Lemma hl_range_In (a b x : Z) : In x (hl_range a b) <-> a <= x < b.
Proof.
  unfold hl_range. rewrite in_map_iff. split.
  - intros (k & <- & Hk). apply in_seq in Hk. lia.
  - intros H. exists (Z.to_nat (x - a)). split; [lia|]. apply in_seq. lia.
Qed.

(** The rows a kept interval is exploded into: as many as [end - start],
    at the positions from [start] up to [end - 1], each with the gene id,
    the gene name and the contig of the interval. *)
Lemma explode_locus_length (r : gtf_row) :
  List.length (explode_locus r)
  = Z.to_nat (position (i_end (interval r)) - position (i_start (interval r))).
Proof.
  unfold explode_locus, locus_array. rewrite !length_map. apply hl_range_length.
Qed.

Lemma explode_locus_In (r : gtf_row) (g : gene_base) :
  In g (explode_locus r) <->
  g_gene_id g = gene_id r /\ g_gene_name g = gene_name r /\
  contig (g_locus g) = contig (i_start (interval r)) /\
  position (i_start (interval r)) <= position (g_locus g) < position (i_end (interval r)).
Proof.
  unfold explode_locus, locus_array. rewrite in_map_iff. split.
  - intros (l & <- & Hl). apply in_map_iff in Hl. destruct Hl as (x & <- & Hx).
    apply hl_range_In in Hx. simpl. tauto.
  - intros (Hid & Hname & Hc & Hp). exists (g_locus g). split.
    + destruct g as [gi gl gn]. simpl in *. subst. reflexivity.
    + apply in_map_iff. exists (position (g_locus g)). split.
      * destruct (g_locus g) as [c p]. simpl in *. subst. reflexivity.
      * apply hl_range_In. exact Hp.
Qed.

(** The intervals of the imported table include both ends. *)
Lemma import_gtf_closed (valid_contigs : list string) (lines : list gtf_line) (r : gtf_row) :
  In r (import_gtf valid_contigs lines) ->
  includes_start (interval r) = true /\ includes_end (interval r) = true.
Proof.
  unfold import_gtf. rewrite in_map_iff. intros (ln & <- & _). simpl. tauto.
Qed.

Lemma import_gtf_valid_contig (valid_contigs : list string) (lines : list gtf_line) (r : gtf_row) :
  In r (import_gtf valid_contigs lines) ->
  In (contig (i_start (interval r))) valid_contigs.
Proof.
  unfold import_gtf. rewrite in_map_iff. intros (ln & <- & Hln).
  apply filter_In in Hln. simpl. apply str_in_In. tauto.
Qed.

(** The defect behind C3 in general: a CDS interval of the imported table
    covers one base more than it is exploded into, its end base. *)
Lemma explode_locus_one_short (valid_contigs : list string) (lines : list gtf_line) (r : gtf_row) :
  In r (import_gtf valid_contigs lines) ->
  position (i_start (interval r)) <= position (i_end (interval r)) ->
  interval_length (interval r) = S (List.length (explode_locus r)) /\
  In (position (i_end (interval r))) (interval_positions (interval r)) /\
  ~ In (position (i_end (interval r))) (map (fun g => position (g_locus g)) (explode_locus r)).
Proof.
  intros Hr Hle. destruct (import_gtf_closed _ _ _ Hr) as [Hs He].
  unfold interval_length, interval_positions. rewrite Hs, He.
  rewrite hl_range_length, explode_locus_length. split; [lia|]. split.
  - apply hl_range_In. lia.
  - rewrite in_map_iff. intros (g & Hg & Hin).
    apply explode_locus_In in Hin. lia.
Qed.

Lemma filter_filter_implied (A : Type) (p q : A -> bool) (t : list A) :
  (forall x, p x = true -> q x = true) -> filter p (filter q t) = filter p t.
Proof.
  intros H. induction t as [|x t IH]; simpl; [reflexivity|].
  destruct (q x) eqn:Eq; simpl.
  - rewrite IH. reflexivity.
  - destruct (p x) eqn:Ep; [|exact IH].
    rewrite (H x Ep) in Eq. discriminate.
Qed.

Lemma filter_filter_excluded (A : Type) (p q : A -> bool) (t : list A) :
  (forall x, p x = true -> q x = false) -> filter p (filter q t) = [].
Proof.
  intros H. induction t as [|x t IH]; simpl; [reflexivity|].
  destruct (q x) eqn:Eq; simpl; [|exact IH].
  destruct (p x) eqn:Ep; [|exact IH].
  rewrite (H x Ep) in Eq. discriminate.
Qed.

Lemma at_key_iff (l : locus) (g : string) (r : gene_base) :
  at_key l g r = true <-> g_locus r = l /\ g_gene_id r = g.
Proof.
  unfold at_key. rewrite andb_true_iff, locus_eqb_eq, String.eqb_eq. tauto.
Qed.

Lemma key_eqb_iff (a b : gene_base) :
  key_eqb a b = true <-> g_locus a = g_locus b /\ g_gene_id a = g_gene_id b.
Proof.
  unfold key_eqb. rewrite andb_true_iff, locus_eqb_eq, String.eqb_eq. tauto.
Qed.

(** [distinct] leaves one row at a key that the table has, none at a key
    it does not have. *)
Lemma distinct_rows_at (t : list gene_base) (l : locus) (g : string) :
  List.length (rows_at l g (distinct t)) = if existsb (at_key l g) t then 1%nat else 0%nat.
Proof.
  unfold rows_at.
  induction t as [|r t IH]; simpl; [reflexivity|].
  destruct (at_key l g r) eqn:Er; simpl.
  - rewrite filter_filter_excluded; [reflexivity|].
    intros x Hx. apply negb_false_iff. apply key_eqb_iff.
    apply at_key_iff in Er. apply at_key_iff in Hx.
    destruct Er as [-> ->], Hx as [-> ->]. tauto.
  - rewrite filter_filter_implied; [exact IH|].
    intros x Hx. apply negb_true_iff.
    destruct (key_eqb r x) eqn:Ek; [|reflexivity].
    apply key_eqb_iff in Ek. apply at_key_iff in Hx.
    destruct Ek as [E1 E2], Hx as [H1 H2].
    assert (at_key l g r = true) as Habs by (apply at_key_iff; split; congruence).
    congruence.
Qed.

Lemma existsb_flat_map (A B : Type) (p : B -> bool) (f : A -> list B) (t : list A) :
  existsb p (flat_map f t) = existsb (fun a => existsb p (f a)) t.
Proof.
  induction t as [|a t IH]; simpl; [reflexivity|].
  rewrite existsb_app, IH. reflexivity.
Qed.

(** Deduplication on the key, for the bases the intervals are exploded
    into: a locus that the kept intervals of a gene give at least once has
    one row for that gene, however many of them give it. *)
Lemma import_cds_one_row_per_key (valid_contigs : list string) (lines : list gtf_line)
      (r : gtf_row) (l : locus) :
  In r (import_gtf valid_contigs lines) ->
  is_basic_cds r = true ->
  In l (locus_array r) ->
  List.length (rows_at l (gene_id r) (import_cds_from_gtf valid_contigs lines)) = 1%nat.
Proof.
  intros Hr Hk Hl. unfold import_cds_from_gtf. rewrite distinct_rows_at.
  rewrite existsb_flat_map.
  replace (existsb _ _) with true; [reflexivity|].
  symmetry. apply existsb_exists. exists r. split.
  - apply filter_In. tauto.
  - apply existsb_exists.
    exists {| g_gene_id := gene_id r; g_locus := l; g_gene_name := gene_name r |}. split.
    + unfold explode_locus. apply in_map_iff. exists l. tauto.
    + apply at_key_iff. simpl. tauto.
Qed.

(** A locus that no kept interval of a gene is exploded into has no row
    for that gene. *)
Lemma import_cds_no_row (valid_contigs : list string) (lines : list gtf_line)
      (l : locus) (g : string) :
  (forall r, In r (import_gtf valid_contigs lines) -> is_basic_cds r = true ->
             gene_id r = g -> ~ In l (locus_array r)) ->
  rows_at l g (import_cds_from_gtf valid_contigs lines) = [].
Proof.
  intros Hnone. apply length_zero_iff_nil.
  unfold import_cds_from_gtf. rewrite distinct_rows_at, existsb_flat_map.
  replace (existsb _ _) with false; [reflexivity|].
  symmetry. apply not_true_is_false. intros H.
  apply existsb_exists in H. destruct H as (r & Hr & H).
  apply filter_In in Hr. destruct Hr as [Hr Hk].
  apply existsb_exists in H. destruct H as (b & Hb & Hkey).
  apply at_key_iff in Hkey. destruct Hkey as [Hloc Hid].
  unfold explode_locus in Hb. apply in_map_iff in Hb.
  destruct Hb as (l' & <- & Hl'). simpl in Hloc, Hid. subst l'.
  exact (Hnone r Hr Hk Hid Hl').
Qed.

(** C3 at a failing input.  The CDS from 100 to 102 of chromosome 1 is kept
    and covers three bases; it is exploded into two rows, at 100 and 101,
    each with its gene id and name; its end base 102 has no row. *)
Theorem cds_end_base_has_no_row :
  map (fun r => (is_basic_cds r, interval_length (interval r), interval_positions (interval r)))
      (import_gtf ["1"] one_cds)
  = [(true, 3%nat, [100; 101; 102])] /\
  import_cds_from_gtf ["1"] one_cds = [base_of "ENSG1" "G1" 100; base_of "ENSG1" "G1" 101] /\
  rows_at_locus (chr1_at 102) (import_cds_from_gtf ["1"] one_cds) = [].
Proof. repeat split. Qed.

(** C8 at a failing input.  Base 102 is covered by two overlapping CDS of
    one gene and has no row, not one; covered by the CDS of two genes it
    has no row, not two.  Base 101, which is not the end of the first CDS,
    has the one row, and the two rows, of the claim. *)
Theorem shared_end_base_has_no_row :
  map (fun r => (is_basic_cds r, gene_id r, interval_positions (interval r)))
      (import_gtf ["1"] same_gene_cds)
  = [(true, "ENSG1", [100; 101; 102]); (true, "ENSG1", [101; 102])] /\
  rows_at (chr1_at 102) "ENSG1" (import_cds_from_gtf ["1"] same_gene_cds) = [] /\
  rows_at (chr1_at 101) "ENSG1" (import_cds_from_gtf ["1"] same_gene_cds)
  = [base_of "ENSG1" "G1" 101] /\
  map (fun r => (is_basic_cds r, gene_id r, interval_positions (interval r)))
      (import_gtf ["1"] two_gene_cds)
  = [(true, "ENSG1", [100; 101; 102]); (true, "ENSG2", [101; 102])] /\
  rows_at_locus (chr1_at 102) (import_cds_from_gtf ["1"] two_gene_cds) = [] /\
  rows_at_locus (chr1_at 101) (import_cds_from_gtf ["1"] two_gene_cds)
  = [base_of "ENSG1" "G1" 101; base_of "ENSG2" "G2" 101].
Proof. repeat split. Qed.

(** ** The per-base join *)

Lemma append_inj_l (a b c : string) : a ++ b = a ++ c -> b = c.
Proof.
  induction a as [|ch a IH]; simpl; intros H; [exact H|].
  inversion H. auto.
Qed.

Lemma prefix_append (a b : string) : String.prefix a (a ++ b) = true.
Proof.
  induction a as [|ch a IH]; simpl.
  - destruct b; reflexivity.
  - destruct (ascii_dec ch ch) as [_|N]; [exact IH | contradiction].
Qed.

Lemma append_assoc3 (a b c : string) : a ++ b ++ c = (a ++ b) ++ c.
Proof.
  induction a as [|ch a IH]; simpl; [reflexivity | rewrite IH; reflexivity].
Qed.

(** What [get_cov_ht] returns when the struct builds and no platform is
    named [all]: a table whose fields all start with the data type and an
    underscore, with one row per row of the matrix, at the same locus, each
    row giving every field. *)
Lemma get_cov_ht_ok (iap : locus -> bool) (dt : string) (m : matrix_table) :
  has_full_columns (entry_schema m) ->
  ~ In "all" (map qc_platform (cols m)) ->
  exists t,
    get_cov_ht iap dt m = OK t /\
    (forall x, In x (cov_fields t) -> String.prefix (dt ++ "_") x = true) /\
    map fst (cov_rows t) = map fst (rows m) /\
    (forall r, In r (cov_rows t) -> map fst (snd r) = cov_fields t).
Proof.
  intros Hfull Hall. unfold get_cov_ht.
  set (platforms := nodup string_dec (map qc_platform (cols m))).
  set (S := built_struct iap (entry_schema m)).
  rewrite (mapM_ok _ (fun platform =>
                        (dt ++ "_" ++ platform,
                         fun (l : locus) (mt : scope) => S l (agg_filter_platform platform mt)))).
  2:{ intros pf _. rewrite (get_haploid_coverage_struct_ok iap Hfull). reflexivity. }
  cbn [bind]. rewrite (get_haploid_coverage_struct_ok iap Hfull). cbn [bind].
  rewrite map_map. cbn [fst].
  replace (str_in (dt ++ "_all") (map (fun x => dt ++ "_" ++ x) platforms)) with false.
  2:{ symmetry. apply not_true_is_false. intros H. apply str_in_In in H.
      apply in_map_iff in H. destruct H as (pf & E & Hpf).
      apply Hall. unfold platforms in Hpf. rewrite nodup_In in Hpf.
      apply append_inj_l in E. simpl in E. inversion E. subst pf. exact Hpf. }
  eexists. split; [reflexivity|]. cbn [cov_fields cov_rows]. split; [|split].
  - intros x Hx. rewrite map_app, map_map in Hx. cbn [fst map] in Hx.
    apply in_app_iff in Hx. destruct Hx as [Hx|[<-|[]]].
    + apply in_map_iff in Hx. destruct Hx as (pf & <- & _).
      rewrite append_assoc3. apply prefix_append.
    + change (dt ++ "_all") with (dt ++ "_" ++ "all").
      rewrite append_assoc3. apply prefix_append.
  - rewrite map_map. reflexivity.
  - intros r Hr. apply in_map_iff in Hr. destruct Hr as (r0 & <- & _).
    cbn [snd]. rewrite map_map. reflexivity.
Qed.

Lemma lookup_app (A : Type) (x : string) (a b : list (string * A)) :
  lookup x (a ++ b)%list = match lookup x a with
                           | Some v => Some v
                           | None => lookup x b
                           end.
Proof.
  induction a as [|[k v] a IH]; simpl; [reflexivity|].
  destruct (String.eqb x k); [reflexivity | exact IH].
Qed.

Lemma lookup_not_in (A : Type) (x : string) (a : list (string * A)) :
  ~ In x (map fst a) -> lookup x a = None.
Proof.
  induction a as [|[k v] a IH]; simpl; intros H; [reflexivity|].
  destruct (String.eqb x k) eqn:E.
  - apply String.eqb_eq in E. subst k. exfalso. apply H. left. reflexivity.
  - apply IH. intros Hin. apply H. right. exact Hin.
Qed.

Lemma lookup_const (A : Type) (x : string) (v : A) (names : list string) :
  In x names -> lookup x (map (fun f => (f, v)) names) = Some v.
Proof.
  induction names as [|k names IH]; simpl; intros H; [contradiction|].
  destruct (String.eqb x k) eqn:E; [reflexivity|].
  apply IH. destruct H as [->|H]; [|exact H].
  rewrite String.eqb_refl in E. discriminate.
Qed.

Lemma splat_names (t : cov_table) (l : locus) : map fst (splat t l) = cov_fields t.
Proof.
  unfold splat. destruct (index_locus (cov_rows t) l); rewrite map_map; apply map_id.
Qed.

(** A locus without a row in the coverage table: every field of the table
    is there and is missing. *)
Lemma splat_missing (t : cov_table) (l : locus) (x : string) :
  index_locus (cov_rows t) l = None -> In x (cov_fields t) ->
  lookup x (splat t l) = Some None.
Proof.
  intros Hl Hx. unfold splat. rewrite Hl. apply lookup_const. exact Hx.
Qed.

Lemma prefix_exomes_genomes (x : string) :
  String.prefix "exomes_" x = true -> String.prefix "genomes_" x = true -> False.
Proof.
  destruct x as [|c x]; cbn [String.prefix]; [discriminate|].
  intros He Hg.
  destruct (ascii_dec "e" c) as [Ee|_]; [|discriminate He].
  destruct (ascii_dec "g" c) as [Eg|_]; [|discriminate Hg].
  rewrite <- Ee in Eg. discriminate Eg.
Qed.

(** C7.  The join keeps the gene model row for row, and nothing else.  A
    base whose locus has no row in a coverage table has every field of
    that table, each missing; a base whose locus has no row in the
    mappability table has a missing mappability. *)
Theorem per_base_join_is_left_outer
        (iap : locus -> bool) (genomes_mt exomes_mt : matrix_table)
        (ucsc : list (locus * mappability_row))
        (valid_contigs : list string) (lines : list gtf_line) :
  has_full_columns (entry_schema genomes_mt) ->
  has_full_columns (entry_schema exomes_mt) ->
  ~ In "all" (map qc_platform (cols genomes_mt)) ->
  ~ In "all" (map qc_platform (cols exomes_mt)) ->
  exists genomes_cov exomes_cov t,
    get_cov_ht iap "genomes" genomes_mt = OK genomes_cov /\
    get_cov_ht iap "exomes" exomes_mt = OK exomes_cov /\
    compute_per_base_cds_coverage iap genomes_mt exomes_mt ucsc valid_contigs lines = OK t /\
    map (fun b => {| g_gene_id := b_gene_id b;
                     g_locus := b_locus b;
                     g_gene_name := b_gene_name b |}) (bt_rows t)
    = import_cds_from_gtf valid_contigs lines /\
    forall b, In b (bt_rows t) ->
      (index_locus (cov_rows exomes_cov) (b_locus b) = None ->
       forall x, In x (cov_fields exomes_cov) -> lookup x (b_cov b) = Some None) /\
      (index_locus (cov_rows genomes_cov) (b_locus b) = None ->
       forall x, In x (cov_fields genomes_cov) -> lookup x (b_cov b) = Some None) /\
      (index_locus ucsc (b_locus b) = None -> mappability b = None).
Proof.
  intros Hg He Hgall Heall.
  destruct (get_cov_ht_ok iap "genomes" genomes_mt Hg Hgall) as (gc & Hgc & Hgp & _).
  destruct (get_cov_ht_ok iap "exomes" exomes_mt He Heall) as (ec & Hec & Hep & _).
  exists gc, ec. eexists. split; [exact Hgc|]. split; [exact Hec|].
  unfold compute_per_base_cds_coverage. rewrite Hgc, Hec. cbn [bind].
  split; [reflexivity|]. cbn [bt_rows]. split.
  - rewrite map_map. cbn [b_gene_id b_locus b_gene_name].
    erewrite map_ext; [apply map_id|]. intros [gi gl gn]. reflexivity.
  - intros b Hb. apply in_map_iff in Hb. destruct Hb as (g & <- & _).
    cbn [b_locus b_cov mappability]. split; [|split].
    + intros Hl x Hx. rewrite lookup_app, (@splat_missing _ _ x Hl Hx). reflexivity.
    + intros Hl x Hx. rewrite lookup_app, lookup_not_in.
      * apply splat_missing; assumption.
      * rewrite splat_names. intros Hxe.
        exact (prefix_exomes_genomes _ (Hep x Hxe) (Hgp x Hx)).
    + intros Hl. rewrite Hl. reflexivity.
Qed.

Lemma per_base_join_is_left_outer_witness :
  exists genomes_cov exomes_cov t,
    get_cov_ht grch37_in_autosome_or_par "genomes" example_mt = OK genomes_cov /\
    get_cov_ht grch37_in_autosome_or_par "exomes" example_mt = OK exomes_cov /\
    compute_per_base_cds_coverage grch37_in_autosome_or_par example_mt example_mt
      example_mappability ["1"] one_cds = OK t /\
    map (fun b => {| g_gene_id := b_gene_id b;
                     g_locus := b_locus b;
                     g_gene_name := b_gene_name b |}) (bt_rows t)
    = import_cds_from_gtf ["1"] one_cds /\
    forall b, In b (bt_rows t) ->
      (index_locus (cov_rows exomes_cov) (b_locus b) = None ->
       forall x, In x (cov_fields exomes_cov) -> lookup x (b_cov b) = Some None) /\
      (index_locus (cov_rows genomes_cov) (b_locus b) = None ->
       forall x, In x (cov_fields genomes_cov) -> lookup x (b_cov b) = Some None) /\
      (index_locus example_mappability (b_locus b) = None -> mappability b = None).
Proof.
  apply (@per_base_join_is_left_outer grch37_in_autosome_or_par
           example_mt example_mt example_mappability ["1"] one_cds).
  - unfold has_full_columns. apply in_thresholds_cases; reflexivity.
  - unfold has_full_columns. apply in_thresholds_cases; reflexivity.
  - simpl. intuition discriminate.
  - simpl. intuition discriminate.
Defined.

(** The joined example: base 100 has its coverage and mappability, base 101
    is kept with every field missing. *)
Example joined_example :
  exists t,
    compute_per_base_cds_coverage grch37_in_autosome_or_par example_mt example_mt
      example_mappability ["1"] one_cds = OK t /\
    row_value t = ["gene_name"; "exomes_agilent"; "exomes_all";
                   "genomes_agilent"; "genomes_all"; "mappability"] /\
    map (fun b => (b_locus b, map (fun c => (fst c, is_null (snd c))) (b_cov b),
                   is_null (mappability b))) (bt_rows t)
    = [(chr1_at 100,
        [("exomes_agilent", false); ("exomes_all", false);
         ("genomes_agilent", false); ("genomes_all", false)], false);
       (chr1_at 101,
        [("exomes_agilent", true); ("exomes_all", true);
         ("genomes_agilent", true); ("genomes_all", true)], true)].
Proof. eexists. split; [reflexivity|]. split; reflexivity. Qed.

(** ** The per-gene export *)

Lemma fold_min_le (xs : list Z) (x : Z) : fold_left Z.min xs x <= x.
Proof.
  revert x. induction xs as [|y xs IH]; intros x; simpl; [lia|].
  specialize (IH (Z.min x y)). lia.
Qed.

Lemma fold_max_ge (xs : list Z) (x : Z) : x <= fold_left Z.max xs x.
Proof.
  revert x. induction xs as [|y xs IH]; intros x; simpl; [lia|].
  specialize (IH (Z.max x y)). lia.
Qed.

Lemma agg_min_le_max (xs : list Z) (lo hi : Z) :
  agg_min xs = Some lo -> agg_max xs = Some hi -> lo <= hi.
Proof.
  destruct xs as [|x xs]; simpl; [discriminate|].
  intros Hlo Hhi. inversion Hlo. inversion Hhi.
  pose proof (fold_min_le xs x). pose proof (fold_max_ge xs x). lia.
Qed.

(** A fraction of records is between 0 and 1, and is there as soon as
    there is a record. *)
Lemma agg_fraction_bounds (ps : list (option bool)) :
  ps <> [] -> exists q, agg_fraction ps = Some q /\ (0 <= q <= 1)%Q.
Proof.
  destruct ps as [|p ps]; [congruence|]. intros _.
  unfold agg_fraction. eexists. split; [reflexivity|].
  set (all := p :: ps).
  set (num := List.length (filter _ all)).
  assert (Hnum : (num <= List.length all)%nat) by apply filter_length_le.
  assert (Hpos : (0 < inject_Z (Z.of_nat (List.length all)))%Q).
  { rewrite <- (Zlt_Qlt 0). simpl. lia. }
  split.
  - apply Qle_shift_div_l; [exact Hpos|].
    rewrite Qmult_0_l. rewrite <- (Zle_Qle 0). lia.
  - apply Qle_shift_div_r; [exact Hpos|].
    rewrite Qmult_1_l. rewrite <- Zle_Qle. lia.
Qed.

Lemma group_rows_nonempty (g : string) (t : list cov_base) :
  In g (group_keys t) -> exists r, In r (group_rows g t).
Proof.
  unfold group_keys, group_rows. rewrite nodup_In, in_map_iff.
  intros (r & Hg & Hr). exists r. apply filter_In. split; [exact Hr|].
  rewrite Hg. apply String.eqb_refl.
Qed.

(** A row of the export comes from a gene id of the table without its Y
    rows, and from one of the coverage fields. *)
Lemma export_gene_coverage_In (am : list (option Q) -> option Q) (cov : base_table)
      (s : gene_summary) :
  In s (export_gene_coverage am cov) ->
  exists g x,
    In g (group_keys (filter_out_Y (bt_rows cov))) /\
    s = {| s_gene_id := g;
           s_gene_name := agg_take1 (map b_gene_name (group_rows g (filter_out_Y (bt_rows cov))));
           gene_interval :=
             hl_interval_of
               (agg_take1 (map (fun r => contig (b_locus r))
                               (group_rows g (filter_out_Y (bt_rows cov)))))
               (agg_min (map (fun r => position (b_locus r))
                             (group_rows g (filter_out_Y (bt_rows cov)))))
               (agg_max (map (fun r => position (b_locus r))
                             (group_rows g (filter_out_Y (bt_rows cov)))));
           mean_mappability :=
             agg_mean (map mappability (group_rows g (filter_out_Y (bt_rows cov))));
           median_mappability :=
             am (map mappability (group_rows g (filter_out_Y (bt_rows cov))));
           s_stat := cov_stat_of x (group_rows g (filter_out_Y (bt_rows cov))) |}.
Proof.
  unfold export_gene_coverage. rewrite in_flat_map. intros (g & Hg & Hs).
  unfold summarize_gene in Hs. rewrite map_map in Hs. apply in_map_iff in Hs.
  destruct Hs as (x & <- & _). exists g, x. split; [exact Hg | reflexivity].
Qed.

(** C9.  Every row of the export has its fraction of well-covered bases,
    between 0 and 1, and its gene interval, whose start position is at
    most its end position. *)
Theorem export_fraction_and_interval_bounds
        (am : list (option Q) -> option Q) (cov : base_table) (s : gene_summary) :
  In s (export_gene_coverage am cov) ->
  (exists q, frac_well_covered_bases (s_stat s) = Some q /\ (0 <= q <= 1)%Q) /\
  (exists iv, gene_interval s = Some iv /\
              position (i_start iv) <= position (i_end iv)).
Proof.
  intros Hs. apply export_gene_coverage_In in Hs. destruct Hs as (g & x & Hg & ->).
  destruct (group_rows_nonempty _ _ Hg) as (r & Hr).
  cbn [s_stat gene_interval]. split.
  - unfold cov_stat_of. cbn [frac_well_covered_bases].
    apply agg_fraction_bounds.
    destruct (group_rows g _) as [|r0 grp]; [contradiction | discriminate].
  - destruct (group_rows g _) as [|r0 grp] eqn:E; [contradiction|].
    cbn [map agg_take1 hl_interval_of].
    destruct (agg_min _) as [lo|] eqn:Hlo; [|discriminate Hlo].
    destruct (agg_max _) as [hi|] eqn:Hhi; [|discriminate Hhi].
    eexists. split; [reflexivity|]. cbn [i_start i_end position].
    exact (agg_min_le_max _ Hlo Hhi).
Qed.

Lemma export_fraction_and_interval_bounds_witness :
  exists s,
    In s (export_gene_coverage hl_median example_joined) /\
    (exists q, frac_well_covered_bases (s_stat s) = Some q /\ (0 <= q <= 1)%Q) /\
    (exists iv, gene_interval s = Some iv /\
                position (i_start iv) <= position (i_end iv)).
Proof.
  eexists. split.
  - left. reflexivity.
  - apply (@export_fraction_and_interval_bounds hl_median example_joined).
    left. reflexivity.
Defined.

Lemma filter_out_Y_idempotent (t : list cov_base) :
  filter_out_Y (filter_out_Y t) = filter_out_Y t.
Proof.
  unfold filter_out_Y. apply filter_filter_implied. intros x Hx. exact Hx.
Qed.

Lemma filter_out_Y_In (t : list cov_base) (r : cov_base) :
  In r (filter_out_Y t) <-> In r t /\ contig (b_locus r) <> "Y".
Proof.
  unfold filter_out_Y. rewrite filter_In, negb_true_iff.
  rewrite <- not_true_iff_false, String.eqb_eq. tauto.
Qed.

(** C6.  The export of a table is the export of the table without its Y
    rows, however many there are; every row of the export is of a gene
    that has a row off Y, and its gene interval is not on Y. *)
Theorem y_rows_do_not_reach_export
        (am : list (option Q) -> option Q) (cov : base_table) :
  export_gene_coverage am cov
  = export_gene_coverage am {| row_value := row_value cov;
                               bt_rows := filter_out_Y (bt_rows cov) |} /\
  forall s, In s (export_gene_coverage am cov) ->
    (exists r, In r (bt_rows cov) /\ contig (b_locus r) <> "Y" /\
               b_gene_id r = s_gene_id s) /\
    (forall iv, gene_interval s = Some iv ->
                contig (i_start iv) <> "Y" /\ contig (i_end iv) <> "Y").
Proof.
  split.
  - unfold export_gene_coverage. cbn [row_value bt_rows].
    rewrite filter_out_Y_idempotent. reflexivity.
  - intros s Hs. apply export_gene_coverage_In in Hs.
    destruct Hs as (g & x & Hg & ->). cbn [s_gene_id gene_interval].
    destruct (group_rows_nonempty _ _ Hg) as (r & Hr).
    assert (Hgrp : forall r', In r' (group_rows g (filter_out_Y (bt_rows cov))) ->
                              In r' (bt_rows cov) /\ contig (b_locus r') <> "Y" /\
                              b_gene_id r' = g).
    { intros r' Hr'. unfold group_rows in Hr'. apply filter_In in Hr'.
      destruct Hr' as [Hin Hid]. apply filter_out_Y_In in Hin.
      apply String.eqb_eq in Hid. tauto. }
    split.
    + exists r. exact (Hgrp r Hr).
    + intros iv Hiv.
      destruct (group_rows g _) as [|r0 grp]; [contradiction|].
      cbn [map agg_take1 hl_interval_of] in Hiv.
      destruct (agg_min _); [|discriminate Hiv].
      destruct (agg_max _); [|discriminate Hiv].
      inversion Hiv. cbn [i_start i_end contig].
      destruct (Hgrp r0 (or_introl eq_refl)) as (_ & HY & _). tauto.
Qed.

(** The export of the example: the gene on chromosome 1 once per coverage
    field, one base in three well covered in each; nothing of the gene on Y. *)
Example export_example :
  map (fun s => (s_gene_id s, s_gene_name s, gene_interval s,
                 data_type (s_stat s), platform (s_stat s),
                 frac_well_covered_bases (s_stat s)))
      (export_gene_coverage hl_median example_joined)
  = [("ENSG1", Some "G1",
      Some {| i_start := chr1_at 100; i_end := chr1_at 102;
              includes_start := true; includes_end := false |},
      "exomes", "all", Some (1 # 3)%Q);
     ("ENSG1", Some "G1",
      Some {| i_start := chr1_at 100; i_end := chr1_at 102;
              includes_start := true; includes_end := false |},
      "genomes", "all", Some (1 # 3)%Q)].
Proof. reflexivity. Qed.

Lemma y_rows_do_not_reach_export_witness :
  export_gene_coverage hl_median example_joined
  = export_gene_coverage hl_median {| row_value := row_value example_joined;
                                      bt_rows := filter_out_Y (bt_rows example_joined) |} /\
  exists s,
    In s (export_gene_coverage hl_median example_joined) /\
    (exists r, In r (bt_rows example_joined) /\ contig (b_locus r) <> "Y" /\
               b_gene_id r = s_gene_id s) /\
    (forall iv, gene_interval s = Some iv ->
                contig (i_start iv) <> "Y" /\ contig (i_end iv) <> "Y").
Proof.
  destruct (@y_rows_do_not_reach_export hl_median example_joined) as [Heq Hrows].
  split; [exact Heq|].
  eexists. split.
  - left. reflexivity.
  - apply Hrows. left. reflexivity.
Defined.

(** * Further properties *)

(** ** The struct: the other branch, errors, bounds *)

Lemma mapM_ok_inv (A B : Type) (f : A -> result B) (l : list A) (bs : list B) :
  mapM f l = OK bs -> forall a, In a l -> exists b, f a = OK b.
Proof.
  revert bs. induction l as [|a0 l IH]; intros bs H a Ha; [contradiction|].
  simpl in H. apply bind_ok_inv in H. destruct H as (b0 & Hb0 & H).
  apply bind_ok_inv in H. destruct H as (bs' & Hbs' & _).
  destruct Ha as [<-|Ha]; [exists b0; exact Hb0 | exact (IH bs' Hbs' a Ha)].
Qed.

Lemma sum_over_ext_in (g h : col * entry -> Q) (mt : scope) :
  (forall ce, In ce mt -> (g ce == h ce)%Q) -> (sum_over g mt == sum_over h mt)%Q.
Proof.
  induction mt as [|ce mt IH]; intros E; simpl.
  - reflexivity.
  - rewrite (E ce (or_introl eq_refl)), IH; [reflexivity|].
    intros ce' Hce'. apply E. right. exact Hce'.
Qed.

Lemma sum_over_scale (c : Q) (g : col * entry -> Q) (mt : scope) :
  (sum_over (fun ce => c * g ce) mt == c * sum_over g mt)%Q.
Proof.
  induction mt as [|ce mt IH]; simpl.
  - ring.
  - rewrite IH. ring.
Qed.

Lemma sum_over_le (g h : col * entry -> Q) (mt : scope) :
  (forall ce, In ce mt -> (g ce <= h ce)%Q) -> (sum_over g mt <= sum_over h mt)%Q.
Proof.
  induction mt as [|ce mt IH]; intros E; simpl.
  - apply Qle_refl.
  - apply Qplus_le_compat.
    + apply E. left. reflexivity.
    + apply IH. intros ce' Hce'. apply E. right. exact Hce'.
Qed.

Lemma sum_over_zero (mt : scope) : (sum_over (fun _ => 0) mt == 0)%Q.
Proof.
  induction mt as [|ce mt IH]; simpl; [reflexivity | rewrite IH; ring].
Qed.

(** X1.  On an autosomal or PAR locus every one of the nine fraction-over
    fields is computed, never missing, whatever the sex of the samples:
    the field at [i/2] is Σ(value at the full threshold [i]) / Σ(n_i). *)
Theorem diploid_fraction_over_value (iap : locus -> bool) (schema : list string) (i : nat) :
  has_full_columns schema ->
  In i thresholds ->
  exists s,
    get_haploid_coverage_struct iap schema = OK s /\
    forall (l : locus) (mt : scope),
      iap l = true ->
      exists v,
        lookup (over_half i) (cs_over (s l mt)) = Some (Some v) /\
        (v == diploid_fraction_over i mt)%Q.
Proof.
  intros Hfull Hi. exists (built_struct iap schema). split.
  - apply get_haploid_coverage_struct_ok. exact Hfull.
  - intros l mt Hl. unfold built_struct. rewrite Hl. cbn [cs_over].
    rewrite (lookup_diploid_field mt Hi). unfold diploid_field. cbn [snd].
    eexists. split; [reflexivity|].
    rewrite agg_sum_n. unfold diploid_fraction_over.
    apply Qdiv_comp; [|reflexivity].
    rewrite agg_sum_default. apply sum_over_ext. intros ce. reflexivity.
Qed.

Lemma diploid_fraction_over_value_witness :
  exists s,
    get_haploid_coverage_struct grch37_in_autosome_or_par full_schema = OK s /\
    exists v,
      lookup (over_half 1) (cs_over (s chr1_locus two_groups)) = Some (Some v) /\
      (v == diploid_fraction_over 1 two_groups)%Q.
Proof.
  destruct (@diploid_fraction_over_value grch37_in_autosome_or_par full_schema 1%nat)
    as (s & Hs & H).
  - unfold has_full_columns. apply in_thresholds_cases; reflexivity.
  - simpl. tauto.
  - exists s. split; [exact Hs|]. apply H. reflexivity.
Defined.

Lemma built_has_full_columns (iap : locus -> bool) (schema : list string)
      (s : locus -> scope -> coverage_struct) :
  get_haploid_coverage_struct iap schema = OK s -> has_full_columns schema.
Proof.
  intros Hs i Hi. unfold get_haploid_coverage_struct in Hs.
  apply bind_ok_inv in Hs. destruct Hs as (d & Hd & _).
  destruct (mapM_ok_inv _ _ Hd i Hi) as (b & Hb).
  unfold mt_field in Hb. destruct (str_in (over_full i) schema); [reflexivity|].
  simpl in Hb. discriminate.
Qed.

(** X2.  The expression builds exactly when the entry schema has all nine
    full-threshold columns; otherwise building it raises, for every locus,
    PAR or not. *)
Theorem get_haploid_coverage_struct_builds_iff (iap : locus -> bool) (schema : list string) :
  (exists s, get_haploid_coverage_struct iap schema = OK s) <-> has_full_columns schema.
Proof.
  split.
  - intros (s & Hs). exact (@built_has_full_columns iap schema s Hs).
  - intros Hfull. exists (built_struct iap schema).
    apply get_haploid_coverage_struct_ok. exact Hfull.
Qed.

(** X3.  On a non-PAR locus with no male sample the struct agrees with the
    one of an autosomal locus: the mean is half the weighted mean, and a
    field whose half-threshold column exists is Σ(full threshold) / Σ(n_i). *)
Theorem haploid_struct_without_males (iap : locus -> bool) (schema : list string)
        (l : locus) (mt : scope) :
  has_full_columns schema ->
  iap l = false ->
  (forall ce, In ce mt -> is_male ce = false) ->
  exists s,
    get_haploid_coverage_struct iap schema = OK s /\
    (exists v, cs_mean (s l mt) = Some v /\ (v == half * weighted_mean mt)%Q) /\
    forall i, In i thresholds -> str_in (over_half i) schema = true ->
      exists v, lookup (over_half i) (cs_over (s l mt)) = Some (Some v) /\
                (v == diploid_fraction_over i mt)%Q.
Proof.
  intros Hfull Hl Hnomale. exists (built_struct iap schema). split.
  - apply get_haploid_coverage_struct_ok. exact Hfull.
  - unfold built_struct. rewrite Hl. cbn [cs_mean cs_over]. split.
    + eexists. split; [reflexivity|].
      rewrite agg_sum_n. unfold weighted_mean, Qdiv.
      rewrite Qmult_assoc. apply Qmult_comp; [|reflexivity].
      rewrite agg_sum_default, <- sum_over_scale. apply sum_over_ext_in.
      intros ce Hce. rewrite hl_cond_some, (Hnomale ce Hce). ring.
    + intros i Hi Hhalf. rewrite (lookup_haploid_field schema mt Hi).
      unfold haploid_field. rewrite Hhalf. cbn [negb snd].
      eexists. split; [reflexivity|].
      rewrite agg_sum_n. unfold diploid_fraction_over.
      apply Qdiv_comp; [|reflexivity].
      rewrite agg_sum_default. apply sum_over_ext_in. intros ce Hce.
      rewrite (Hnomale ce Hce). reflexivity.
Qed.

Lemma haploid_struct_without_males_witness :
  exists s,
    get_haploid_coverage_struct grch37_in_autosome_or_par full_schema = OK s /\
    (exists v, cs_mean (s chrX_nonpar [females]) = Some v /\
               (v == half * weighted_mean [females])%Q) /\
    forall i, In i thresholds -> str_in (over_half i) full_schema = true ->
      exists v, lookup (over_half i) (cs_over (s chrX_nonpar [females])) = Some (Some v) /\
                (v == diploid_fraction_over i [females])%Q.
Proof.
  apply (@haploid_struct_without_males grch37_in_autosome_or_par full_schema
           chrX_nonpar [females]).
  - unfold has_full_columns. apply in_thresholds_cases; reflexivity.
  - reflexivity.
  - intros ce [<-|[]]. reflexivity.
Defined.

(** X4.  On a non-PAR locus where every sample is male nothing is halved:
    the mean is the weighted mean itself, and a field whose half-threshold
    column exists is Σ(value at the half threshold) / Σ(n_i). *)
Theorem haploid_struct_all_males (iap : locus -> bool) (schema : list string)
        (l : locus) (mt : scope) :
  has_full_columns schema ->
  iap l = false ->
  (forall ce, In ce mt -> is_male ce = true) ->
  exists s,
    get_haploid_coverage_struct iap schema = OK s /\
    (exists v, cs_mean (s l mt) = Some v /\ (v == weighted_mean mt)%Q) /\
    forall i, In i thresholds -> str_in (over_half i) schema = true ->
      exists v, lookup (over_half i) (cs_over (s l mt)) = Some (Some v) /\
                (v == half_column_fraction_over i mt)%Q.
Proof.
  intros Hfull Hl Hmale. exists (built_struct iap schema). split.
  - apply get_haploid_coverage_struct_ok. exact Hfull.
  - unfold built_struct. rewrite Hl. cbn [cs_mean cs_over]. split.
    + eexists. split; [reflexivity|].
      rewrite agg_sum_n. unfold weighted_mean.
      apply Qdiv_comp; [|reflexivity].
      rewrite agg_sum_default. apply sum_over_ext_in.
      intros ce Hce. rewrite hl_cond_some, (Hmale ce Hce). reflexivity.
    + intros i Hi Hhalf. rewrite (lookup_haploid_field schema mt Hi).
      unfold haploid_field. rewrite Hhalf. cbn [negb snd].
      eexists. split; [reflexivity|].
      rewrite agg_sum_n. unfold half_column_fraction_over.
      apply Qdiv_comp; [|reflexivity].
      rewrite agg_sum_default. apply sum_over_ext_in. intros ce Hce.
      rewrite (Hmale ce Hce). reflexivity.
Qed.

Lemma haploid_struct_all_males_witness :
  exists s,
    get_haploid_coverage_struct grch37_in_autosome_or_par full_schema = OK s /\
    (exists v, cs_mean (s chrX_nonpar [males]) = Some v /\
               (v == weighted_mean [males])%Q) /\
    forall i, In i thresholds -> str_in (over_half i) full_schema = true ->
      exists v, lookup (over_half i) (cs_over (s chrX_nonpar [males])) = Some (Some v) /\
                (v == half_column_fraction_over i [males])%Q.
Proof.
  apply (@haploid_struct_all_males grch37_in_autosome_or_par full_schema
           chrX_nonpar [males]).
  - unfold has_full_columns. apply in_thresholds_cases; reflexivity.
  - reflexivity.
  - intros ce [<-|[]]. reflexivity.
Defined.

Lemma ratio_bounds (x d : Q) : (0 < d)%Q -> (0 <= x <= d)%Q -> (0 <= x / d <= 1)%Q.
Proof.
  intros Hd [H0 H1]. split.
  - apply Qle_shift_div_l; [exact Hd|]. rewrite Qmult_0_l. exact H0.
  - apply Qle_shift_div_r; [exact Hd|]. rewrite Qmult_1_l. exact H1.
Qed.

Lemma sum_over_bounds (g : col * entry -> Q) (mt : scope) :
  (forall ce, In ce mt -> (0 <= g ce <= q_n ce)%Q) ->
  (0 <= sum_over g mt <= total_n mt)%Q.
Proof.
  intros H. split.
  - rewrite <- (sum_over_zero mt). apply sum_over_le. intros ce Hce. apply H. exact Hce.
  - apply sum_over_le. intros ce Hce. apply H. exact Hce.
Qed.

(** X5.  When the counts of every sample at the two columns of a threshold
    lie between 0 and its [n], and there is a sample at all, a computed
    fraction-over field lies between 0 and 1, on either branch. *)
Theorem fraction_over_between_0_and_1 (iap : locus -> bool) (schema : list string)
        (i : nat) (l : locus) (mt : scope) :
  has_full_columns schema ->
  In i thresholds ->
  (forall ce, In ce mt -> counts_within_n i ce) ->
  (0 < total_n mt)%Q ->
  exists s,
    get_haploid_coverage_struct iap schema = OK s /\
    forall v, lookup (over_half i) (cs_over (s l mt)) = Some (Some v) ->
              (0 <= v <= 1)%Q.
Proof.
  intros Hfull Hi Hcounts Hpos. exists (built_struct iap schema). split.
  - apply get_haploid_coverage_struct_ok. exact Hfull.
  - intros v. unfold built_struct. destruct (iap l); cbn [cs_over].
    + rewrite (lookup_diploid_field mt Hi). unfold diploid_field. cbn [snd].
      intros E. inversion E. rewrite agg_sum_n, agg_sum_default.
      apply ratio_bounds; [exact Hpos|]. apply sum_over_bounds.
      intros ce Hce. exact (proj1 (Hcounts ce Hce)).
    + rewrite (lookup_haploid_field schema mt Hi). unfold haploid_field. cbn [snd].
      destruct (str_in (over_half i) schema); cbn [negb]; intros E; [|discriminate E].
      inversion E. rewrite agg_sum_n, agg_sum_default.
      apply ratio_bounds; [exact Hpos|]. apply sum_over_bounds.
      intros ce Hce. destruct (Hcounts ce Hce) as [Hf Hh].
      unfold value_at in Hf, Hh. destruct (is_male ce); cbn [hl_cond]; assumption.
Qed.

Lemma fraction_over_between_0_and_1_witness :
  exists s,
    get_haploid_coverage_struct grch37_in_autosome_or_par full_schema = OK s /\
    forall v, lookup (over_half 10) (cs_over (s chrX_nonpar two_groups)) = Some (Some v) ->
              (0 <= v <= 1)%Q.
Proof.
  apply (@fraction_over_between_0_and_1 grch37_in_autosome_or_par full_schema
           10%nat chrX_nonpar two_groups).
  - unfold has_full_columns. apply in_thresholds_cases; reflexivity.
  - simpl. tauto.
  - intros ce [<-|[<-|[]]]; repeat split; vm_compute; discriminate.
  - reflexivity.
Defined.

(** ** The gene model: which rows there are *)

Lemma is_basic_cds_iff (r : gtf_row) :
  is_basic_cds r = true <->
  feature r = "CDS" /\ transcript_type r = Some "protein_coding" /\ tag r = Some "basic".
Proof.
  unfold is_basic_cds, hl_str_eq. split.
  - destruct (String.eqb (feature r) "CDS") eqn:Ef;
      destruct (transcript_type r) as [tt|]; destruct (tag r) as [tg|]; simpl;
      try discriminate;
      try (destruct (String.eqb tt "protein_coding") eqn:Et; simpl; try discriminate);
      try (destruct (String.eqb tg "basic") eqn:Eg; simpl; try discriminate).
    intros _. apply String.eqb_eq in Ef, Et, Eg. subst. tauto.
  - intros (-> & -> & ->). reflexivity.
Qed.

Lemma import_gtf_In (valid_contigs : list string) (lines : list gtf_line) (r : gtf_row) :
  In r (import_gtf valid_contigs lines) <->
  exists ln,
    In ln lines /\ In (strip_chr (seqname ln)) valid_contigs /\
    feature r = l_feature ln /\ transcript_type r = l_transcript_type ln /\
    tag r = l_tag ln /\ gene_id r = l_gene_id ln /\ gene_name r = l_gene_name ln /\
    interval r = {| i_start := {| contig := strip_chr (seqname ln); position := l_start ln |};
                    i_end := {| contig := strip_chr (seqname ln); position := l_end ln |};
                    includes_start := true;
                    includes_end := true |}.
Proof.
  unfold import_gtf. rewrite in_map_iff. split.
  - intros (ln & <- & Hln). apply filter_In in Hln. destruct Hln as [Hin Hv].
    apply str_in_In in Hv. exists ln. simpl. tauto.
  - intros (ln & Hin & Hv & Hf & Ht & Hg & Hi & Hn & Hiv). exists ln. split.
    + destruct r. simpl in *. subst. reflexivity.
    + apply filter_In. split; [exact Hin | apply str_in_In; exact Hv].
Qed.

Lemma distinct_incl (t : list gene_base) (b : gene_base) :
  In b (distinct t) -> In b t.
Proof.
  induction t as [|r t IH]; simpl; [tauto|].
  intros [<-|H]; [left; reflexivity|].
  apply filter_In in H. right. apply IH. tauto.
Qed.

Lemma exploded_rows_In (valid_contigs : list string) (lines : list gtf_line) (b : gene_base) :
  In b (flat_map explode_locus (filter is_basic_cds (import_gtf valid_contigs lines))) <->
  exists ln,
    In ln lines /\ kept_line valid_contigs ln /\
    l_gene_id ln = g_gene_id b /\ l_gene_name ln = g_gene_name b /\
    exploded_to ln (g_locus b).
Proof.
  rewrite in_flat_map. unfold kept_line, exploded_to. split.
  - intros (r & Hr & Hb). apply filter_In in Hr. destruct Hr as [Hr Hk].
    apply is_basic_cds_iff in Hk. apply import_gtf_In in Hr.
    destruct Hr as (ln & Hin & Hv & Hf & Ht & Hg & Hi & Hn & Hiv).
    apply explode_locus_In in Hb. rewrite Hiv in Hb. simpl in Hb.
    exists ln. rewrite <- Hf, <- Ht, <- Hg, <- Hi, <- Hn. intuition auto.
  - intros (ln & Hin & (Hv & Hf & Ht & Hg) & Hi & Hn & Hc & Hp).
    exists {| feature := l_feature ln;
              transcript_type := l_transcript_type ln;
              tag := l_tag ln;
              gene_id := l_gene_id ln;
              gene_name := l_gene_name ln;
              interval :=
                {| i_start := {| contig := strip_chr (seqname ln); position := l_start ln |};
                   i_end := {| contig := strip_chr (seqname ln); position := l_end ln |};
                   includes_start := true;
                   includes_end := true |} |}.
    split.
    + apply filter_In. split.
      * apply import_gtf_In. exists ln. simpl. tauto.
      * apply is_basic_cds_iff. simpl. tauto.
    + apply explode_locus_In. simpl. auto.
Qed.

(** X6.  The gene model has a row at a locus for a gene exactly when some
    kept line of that gene is exploded into the locus: a CDS line of a basic
    protein-coding transcript on a contig of the reference, with the locus
    on its contig at a position from its start up to the base before its
    end. *)
Theorem import_cds_row_at_key_iff (valid_contigs : list string) (lines : list gtf_line)
        (l : locus) (g : string) :
  (exists b, In b (import_cds_from_gtf valid_contigs lines) /\ row_key b = (l, g)) <->
  (exists ln, In ln lines /\ kept_line valid_contigs ln /\ l_gene_id ln = g /\
              exploded_to ln l).
Proof.
  unfold import_cds_from_gtf, row_key. split.
  - intros (b & Hb & Hkey). inversion Hkey. subst l g.
    apply distinct_incl, exploded_rows_In in Hb.
    destruct Hb as (ln & Hin & Hk & Hi & _ & He). exists ln. tauto.
  - intros (ln & Hin & Hk & Hi & He).
    set (t := flat_map explode_locus (filter is_basic_cds (import_gtf valid_contigs lines))).
    assert (Hex : existsb (at_key l g) t = true).
    { apply existsb_exists.
      exists {| g_gene_id := g; g_locus := l; g_gene_name := l_gene_name ln |}. split.
      - apply exploded_rows_In. exists ln. simpl. tauto.
      - apply at_key_iff. simpl. tauto. }
    pose proof (distinct_rows_at t l g) as Hlen. rewrite Hex in Hlen.
    unfold rows_at in Hlen.
    destruct (filter (at_key l g) (distinct t)) as [|b rest] eqn:E; [discriminate Hlen|].
    assert (Hb : In b (filter (at_key l g) (distinct t))) by (rewrite E; left; reflexivity).
    apply filter_In in Hb. destruct Hb as [Hb Hkey]. apply at_key_iff in Hkey.
    exists b. split; [exact Hb|]. destruct Hkey as [-> ->]. reflexivity.
Qed.

Lemma row_key_eq_iff (a b : gene_base) : row_key a = row_key b <-> key_eqb a b = true.
Proof.
  rewrite key_eqb_iff. unfold row_key. split.
  - intros E. inversion E. tauto.
  - intros [-> ->]. reflexivity.
Qed.

Lemma distinct_keys_NoDup (t : list gene_base) : NoDup (map row_key (distinct t)).
Proof.
  induction t as [|r t IH]; simpl; [constructor|].
  constructor.
  - rewrite in_map_iff. intros (b & Hkey & Hb). apply filter_In in Hb.
    destruct Hb as [_ Hneq]. symmetry in Hkey. apply row_key_eq_iff in Hkey.
    rewrite Hkey in Hneq. discriminate.
  - clear -IH. induction (distinct t) as [|b d IHd]; simpl; [constructor|].
    inversion IH as [|? ? Hnotin Hnd]. subst.
    destruct (negb (key_eqb r b)); simpl.
    + constructor.
      * rewrite in_map_iff. intros (b' & Hk & Hb'). apply filter_In in Hb'.
        apply Hnotin. rewrite in_map_iff. exists b'. tauto.
      * exact (IHd Hnd).
    + exact (IHd Hnd).
Qed.

(** X7.  No two rows of the gene model have the same (locus, gene_id). *)
Theorem import_cds_keys_distinct (valid_contigs : list string) (lines : list gtf_line) :
  NoDup (map row_key (import_cds_from_gtf valid_contigs lines)).
Proof. unfold import_cds_from_gtf. apply distinct_keys_NoDup. Qed.

(** X8.  Every row of the gene model is on a contig of the reference and
    has the gene id and the gene name of a kept line that is exploded into
    its locus; nothing comes from a line of another feature, of another
    transcript type, without the basic tag, or on another contig. *)
Theorem import_cds_rows_from_kept_lines (valid_contigs : list string) (lines : list gtf_line)
        (b : gene_base) :
  In b (import_cds_from_gtf valid_contigs lines) ->
  In (contig (g_locus b)) valid_contigs /\
  exists ln,
    In ln lines /\ kept_line valid_contigs ln /\
    l_gene_id ln = g_gene_id b /\ l_gene_name ln = g_gene_name b /\
    exploded_to ln (g_locus b).
Proof.
  unfold import_cds_from_gtf. intros Hb.
  apply distinct_incl, exploded_rows_In in Hb.
  destruct Hb as (ln & Hin & Hk & Hi & Hn & He). split.
  - destruct He as [-> _]. exact (proj1 Hk).
  - exists ln. tauto.
Qed.

Lemma import_cds_rows_from_kept_lines_witness :
  In (contig (g_locus (base_of "ENSG1" "G1" 100))) ["1"] /\
  exists ln,
    In ln one_cds /\ kept_line ["1"] ln /\
    l_gene_id ln = g_gene_id (base_of "ENSG1" "G1" 100) /\
    l_gene_name ln = g_gene_name (base_of "ENSG1" "G1" 100) /\
    exploded_to ln (g_locus (base_of "ENSG1" "G1" 100)).
Proof.
  apply (@import_cds_rows_from_kept_lines ["1"] one_cds (base_of "ENSG1" "G1" 100)).
  left. reflexivity.
Defined.

Lemma import_gtf_app (valid_contigs : list string) (a b : list gtf_line) :
  import_gtf valid_contigs (a ++ b)%list
  = (import_gtf valid_contigs a ++ import_gtf valid_contigs b)%list.
Proof. unfold import_gtf. rewrite filter_app, map_app. reflexivity. Qed.

Lemma hl_range_empty (a b : Z) : b <= a -> hl_range a b = [].
Proof.
  intros H. unfold hl_range. replace (Z.to_nat (b - a)) with 0%nat by lia. reflexivity.
Qed.

Lemma exploded_rows_skip (valid_contigs : list string) (ln : gtf_line) :
  ~ kept_line valid_contigs ln \/ l_end ln <= l_start ln ->
  flat_map explode_locus (filter is_basic_cds (import_gtf valid_contigs [ln])) = [].
Proof.
  intros H. unfold import_gtf. cbn [filter].
  destruct (str_in (strip_chr (seqname ln)) valid_contigs) eqn:Hv; [|reflexivity].
  cbn [map filter].
  match goal with |- context [is_basic_cds ?r] => destruct (is_basic_cds r) eqn:Hk end;
    [|reflexivity].
  cbn [flat_map]. rewrite app_nil_r.
  destruct H as [Hnot|Hshort].
  - exfalso. apply Hnot. apply is_basic_cds_iff in Hk. simpl in Hk.
    apply str_in_In in Hv. unfold kept_line. tauto.
  - unfold explode_locus, locus_array. cbn [interval i_start i_end position].
    rewrite (hl_range_empty Hshort). reflexivity.
Qed.

(** X9.  A line that is not kept (another feature or transcript type, no
    basic tag, a contig the reference lacks), or whose end is not after its
    start (a CDS of one base among them), leaves the gene model as it is
    without the line. *)
Theorem import_cds_line_without_rows (valid_contigs : list string)
        (before after : list gtf_line) (ln : gtf_line) :
  ~ kept_line valid_contigs ln \/ l_end ln <= l_start ln ->
  import_cds_from_gtf valid_contigs (before ++ ln :: after)%list
  = import_cds_from_gtf valid_contigs (before ++ after)%list.
Proof.
  intros H. unfold import_cds_from_gtf. f_equal.
  change (ln :: after) with ([ln] ++ after)%list.
  rewrite !import_gtf_app, !filter_app, !flat_map_app.
  rewrite (exploded_rows_skip H). reflexivity.
Qed.

Lemma import_cds_line_without_rows_witness :
  import_cds_from_gtf ["1"] (one_cds ++ cds_line "ENSG2" "G2" 200 200 :: [])%list
  = import_cds_from_gtf ["1"] (one_cds ++ [])%list.
Proof.
  apply (@import_cds_line_without_rows ["1"] one_cds [] (cds_line "ENSG2" "G2" 200 200)).
  right. simpl. lia.
Defined.

(** ** The coverage table: fields, values, errors *)

Lemma get_cov_ht_eq (iap : locus -> bool) (dt : string) (m : matrix_table) :
  has_full_columns (entry_schema m) ->
  ~ In "all" (map qc_platform (cols m)) ->
  get_cov_ht iap dt m =
  OK {| cov_fields :=
          List.app
            (map (fun pf => dt ++ "_" ++ pf) (nodup string_dec (map qc_platform (cols m))))
            [dt ++ "_all"];
        cov_rows :=
          map (fun r =>
                 (fst r,
                  List.app
                    (map (fun pf =>
                            (dt ++ "_" ++ pf,
                             built_struct iap (entry_schema m) (fst r)
                               (agg_filter_platform pf (combine (cols m) (snd r)))))
                         (nodup string_dec (map qc_platform (cols m))))
                    [(dt ++ "_all",
                      built_struct iap (entry_schema m) (fst r)
                        (combine (cols m) (snd r)))]))
              (rows m) |}.
Proof.
  intros Hfull Hall. unfold get_cov_ht.
  set (platforms := nodup string_dec (map qc_platform (cols m))).
  set (S := built_struct iap (entry_schema m)).
  rewrite (mapM_ok _ (fun platform =>
                        (dt ++ "_" ++ platform,
                         fun (l : locus) (mt : scope) => S l (agg_filter_platform platform mt)))).
  2:{ intros pf _. rewrite (get_haploid_coverage_struct_ok iap Hfull). reflexivity. }
  cbn [bind]. rewrite (get_haploid_coverage_struct_ok iap Hfull). cbn [bind].
  rewrite map_map. cbn [fst].
  replace (str_in (dt ++ "_all") (map (fun x => dt ++ "_" ++ x) platforms)) with false.
  2:{ symmetry. apply not_true_is_false. intros H. apply str_in_In in H.
      apply in_map_iff in H. destruct H as (pf & E & Hpf).
      apply Hall. unfold platforms in Hpf. rewrite nodup_In in Hpf.
      apply append_inj_l in E. simpl in E. inversion E. subst pf. exact Hpf. }
  f_equal. f_equal.
  - rewrite map_app, map_map. reflexivity.
  - apply map_ext. intros r. f_equal. rewrite map_app, map_map. reflexivity.
Qed.

Lemma index_locus_map (A B : Type) (G : locus -> A -> B) (t : list (locus * A))
      (l : locus) (a : A) :
  index_locus t l = Some a ->
  index_locus (map (fun r => (fst r, G (fst r) (snd r))) t) l = Some (G l a).
Proof.
  induction t as [|[k v] t IH]; simpl; [discriminate|].
  destruct (locus_eqb k l) eqn:E.
  - apply locus_eqb_eq in E. subst k. intros H. inversion H. reflexivity.
  - exact IH.
Qed.

Lemma lookup_map_inj (A B : Type) (f : A -> string) (g : A -> B) (ps : list A) (p : A) :
  (forall q, f q = f p -> q = p) ->
  In p ps ->
  lookup (f p) (map (fun q => (f q, g q)) ps) = Some (g p).
Proof.
  intros Hinj. induction ps as [|q ps IH]; simpl; [contradiction|].
  intros Hin. destruct (String.eqb (f p) (f q)) eqn:E.
  - apply String.eqb_eq in E. symmetry in E. apply Hinj in E. subst q. reflexivity.
  - apply IH. destruct Hin as [->|Hin]; [|exact Hin].
    rewrite String.eqb_refl in E. discriminate.
Qed.

(** X10.  At a locus of the matrix the returned table has, under
    [<data_type>_all], the struct aggregated over all columns of the row
    and, under [<data_type>_<platform>] for the platform of any column, the
    struct aggregated over the columns of that platform only. *)
Theorem get_cov_ht_fields_by_platform (iap : locus -> bool) (dt : string) (m : matrix_table)
        (l : locus) (entries : list entry) :
  has_full_columns (entry_schema m) ->
  ~ In "all" (map qc_platform (cols m)) ->
  index_locus (rows m) l = Some entries ->
  exists s t fields,
    get_haploid_coverage_struct iap (entry_schema m) = OK s /\
    get_cov_ht iap dt m = OK t /\
    index_locus (cov_rows t) l = Some fields /\
    lookup (dt ++ "_all") fields = Some (s l (combine (cols m) entries)) /\
    forall c, In c (cols m) ->
      lookup (dt ++ "_" ++ qc_platform c) fields
      = Some (s l (agg_filter_platform (qc_platform c) (combine (cols m) entries))).
Proof.
  intros Hfull Hall Hrow.
  exists (built_struct iap (entry_schema m)). eexists. eexists.
  split; [apply get_haploid_coverage_struct_ok; exact Hfull|].
  split; [apply get_cov_ht_eq; assumption|].
  cbn [cov_rows]. split.
  - exact (index_locus_map
             (fun k es =>
                List.app
                  (map (fun pf =>
                          (dt ++ "_" ++ pf,
                           built_struct iap (entry_schema m) k
                             (agg_filter_platform pf (combine (cols m) es))))
                       (nodup string_dec (map qc_platform (cols m))))
                  [(dt ++ "_all",
                    built_struct iap (entry_schema m) k (combine (cols m) es))])
             (rows m) l Hrow).
  - split.
    + rewrite lookup_app, lookup_not_in.
      * simpl. rewrite String.eqb_refl. reflexivity.
      * rewrite map_map. cbn [fst]. rewrite in_map_iff. intros (pf & E & Hpf).
        apply Hall. rewrite nodup_In in Hpf.
        apply append_inj_l in E. simpl in E. inversion E. subst pf. exact Hpf.
    + intros c Hc. rewrite lookup_app.
      rewrite (lookup_map_inj
                 (fun pf => dt ++ "_" ++ pf)
                 (fun pf => built_struct iap (entry_schema m) l
                              (agg_filter_platform pf (combine (cols m) entries)))).
      * reflexivity.
      * intros q E. apply append_inj_l in E. simpl in E. inversion E. reflexivity.
      * apply nodup_In. apply in_map. exact Hc.
Qed.

Lemma get_cov_ht_fields_by_platform_witness :
  exists s t fields,
    get_haploid_coverage_struct grch37_in_autosome_or_par (entry_schema example_mt) = OK s /\
    get_cov_ht grch37_in_autosome_or_par "exomes" example_mt = OK t /\
    index_locus (cov_rows t) (chr1_at 100) = Some fields /\
    lookup ("exomes" ++ "_all") fields
    = Some (s (chr1_at 100) (combine (cols example_mt) [snd males; snd females])) /\
    forall c, In c (cols example_mt) ->
      lookup ("exomes" ++ "_" ++ qc_platform c) fields
      = Some (s (chr1_at 100)
                (agg_filter_platform (qc_platform c)
                   (combine (cols example_mt) [snd males; snd females]))).
Proof.
  apply (@get_cov_ht_fields_by_platform grch37_in_autosome_or_par "exomes" example_mt
           (chr1_at 100) [snd males; snd females]).
  - unfold has_full_columns. apply in_thresholds_cases; reflexivity.
  - simpl. intuition discriminate.
  - reflexivity.
Defined.

(** X11.  A column whose platform is named [all] makes [get_cov_ht] raise:
    the keyword [<data_type>_all] would be given twice. *)
Theorem get_cov_ht_platform_all_raises (iap : locus -> bool) (dt : string) (m : matrix_table) :
  has_full_columns (entry_schema m) ->
  In "all" (map qc_platform (cols m)) ->
  exists msg, get_cov_ht iap dt m = Err msg.
Proof.
  intros Hfull Hall. unfold get_cov_ht.
  set (platforms := nodup string_dec (map qc_platform (cols m))).
  set (S := built_struct iap (entry_schema m)).
  rewrite (mapM_ok _ (fun platform =>
                        (dt ++ "_" ++ platform,
                         fun (l : locus) (mt : scope) => S l (agg_filter_platform platform mt)))).
  2:{ intros pf _. rewrite (get_haploid_coverage_struct_ok iap Hfull). reflexivity. }
  cbn [bind]. rewrite (get_haploid_coverage_struct_ok iap Hfull). cbn [bind].
  rewrite map_map. cbn [fst].
  replace (str_in (dt ++ "_all") (map (fun x => dt ++ "_" ++ x) platforms)) with true.
  - eexists. reflexivity.
  - symmetry. apply str_in_In. apply in_map_iff. exists "all". split; [reflexivity|].
    unfold platforms. apply nodup_In. exact Hall.
Qed.

Lemma get_cov_ht_platform_all_raises_witness :
  exists msg,
    get_cov_ht grch37_in_autosome_or_par "exomes"
      {| entry_schema := full_schema;
         cols := [{| qc_platform := "all"; sex := "male" |}];
         rows := [] |} = Err msg.
Proof.
  apply get_cov_ht_platform_all_raises.
  - unfold has_full_columns. apply in_thresholds_cases; reflexivity.
  - simpl. tauto.
Defined.

Lemma get_cov_ht_has_full_columns (iap : locus -> bool) (dt : string)
      (m : matrix_table) (t : cov_table) :
  get_cov_ht iap dt m = OK t -> has_full_columns (entry_schema m).
Proof.
  intros Ht. unfold get_cov_ht in Ht.
  apply bind_ok_inv in Ht. destruct Ht as (bp & _ & Ht).
  apply bind_ok_inv in Ht. destruct Ht as (s & Hs & _).
  exact (@built_has_full_columns iap (entry_schema m) s Hs).
Qed.

(** X12.  Without one of the full-threshold columns in the entry schema
    [get_cov_ht] raises, whatever the columns and rows of the matrix. *)
Theorem get_cov_ht_missing_column_raises (iap : locus -> bool) (dt : string)
        (m : matrix_table) (i : nat) :
  In i thresholds ->
  str_in (over_full i) (entry_schema m) = false ->
  exists msg, get_cov_ht iap dt m = Err msg.
Proof.
  intros Hi Habsent.
  destruct (get_cov_ht iap dt m) as [t|msg] eqn:Ht; [|exists msg; reflexivity].
  exfalso. pose proof (@get_cov_ht_has_full_columns iap dt m t Ht i Hi) as Hin.
  rewrite Hin in Habsent. discriminate.
Qed.

Lemma get_cov_ht_missing_column_raises_witness :
  exists msg,
    get_cov_ht grch37_in_autosome_or_par "exomes"
      {| entry_schema := ["mean"; "median"; "n"; "over_1.0"];
         cols := [fst males];
         rows := [] |} = Err msg.
Proof.
  apply (@get_cov_ht_missing_column_raises grch37_in_autosome_or_par "exomes" _ 5%nat).
  - simpl. tauto.
  - reflexivity.
Defined.

(** ** The per-base join: matched rows, errors *)

Lemma lookup_splat_found (t : cov_table) (l : locus)
      (fields : list (string * coverage_struct)) (x : string) :
  index_locus (cov_rows t) l = Some fields ->
  In x (cov_fields t) ->
  lookup x (splat t l) = Some (lookup x fields).
Proof.
  intros Hl Hx. unfold splat. rewrite Hl.
  exact (@lookup_map_inj _ _ (fun f => f) (fun f => lookup f fields)
                         (cov_fields t) x (fun q E => E) Hx).
Qed.

(** X13.  A base whose locus has a row in a coverage table carries, under
    each field of that table, the struct the row has for it; a base whose
    locus has a row in the mappability table carries its [duke_35_map]. *)
Theorem per_base_join_carries_matches
        (iap : locus -> bool) (genomes_mt exomes_mt : matrix_table)
        (ucsc : list (locus * mappability_row))
        (valid_contigs : list string) (lines : list gtf_line) :
  has_full_columns (entry_schema genomes_mt) ->
  has_full_columns (entry_schema exomes_mt) ->
  ~ In "all" (map qc_platform (cols genomes_mt)) ->
  ~ In "all" (map qc_platform (cols exomes_mt)) ->
  exists genomes_cov exomes_cov t,
    get_cov_ht iap "genomes" genomes_mt = OK genomes_cov /\
    get_cov_ht iap "exomes" exomes_mt = OK exomes_cov /\
    compute_per_base_cds_coverage iap genomes_mt exomes_mt ucsc valid_contigs lines = OK t /\
    forall b, In b (bt_rows t) ->
      (forall fields x, index_locus (cov_rows exomes_cov) (b_locus b) = Some fields ->
                        In x (cov_fields exomes_cov) ->
                        lookup x (b_cov b) = Some (lookup x fields)) /\
      (forall fields x, index_locus (cov_rows genomes_cov) (b_locus b) = Some fields ->
                        In x (cov_fields genomes_cov) ->
                        lookup x (b_cov b) = Some (lookup x fields)) /\
      (forall mr, index_locus ucsc (b_locus b) = Some mr ->
                  mappability b = duke_35_map mr).
Proof.
  intros Hg He Hgall Heall.
  destruct (get_cov_ht_ok iap "genomes" genomes_mt Hg Hgall) as (gc & Hgc & Hgp & _).
  destruct (get_cov_ht_ok iap "exomes" exomes_mt He Heall) as (ec & Hec & Hep & _).
  exists gc, ec. eexists. split; [exact Hgc|]. split; [exact Hec|].
  unfold compute_per_base_cds_coverage. rewrite Hgc, Hec. cbn [bind].
  split; [reflexivity|]. cbn [bt_rows].
  intros b Hb. apply in_map_iff in Hb. destruct Hb as (g & <- & _).
  cbn [b_locus b_cov mappability]. split; [|split].
  - intros fields x Hl Hx. rewrite lookup_app, (@lookup_splat_found _ _ fields x Hl Hx). reflexivity.
  - intros fields x Hl Hx. rewrite lookup_app, lookup_not_in.
    + apply lookup_splat_found; assumption.
    + rewrite splat_names. intros Hxe.
      exact (prefix_exomes_genomes _ (Hep x Hxe) (Hgp x Hx)).
  - intros mr Hl. rewrite Hl. reflexivity.
Qed.

Lemma per_base_join_carries_matches_witness :
  exists genomes_cov exomes_cov t,
    get_cov_ht grch37_in_autosome_or_par "genomes" example_mt = OK genomes_cov /\
    get_cov_ht grch37_in_autosome_or_par "exomes" example_mt = OK exomes_cov /\
    compute_per_base_cds_coverage grch37_in_autosome_or_par example_mt example_mt
      example_mappability ["1"] one_cds = OK t /\
    forall b, In b (bt_rows t) ->
      (forall fields x, index_locus (cov_rows exomes_cov) (b_locus b) = Some fields ->
                        In x (cov_fields exomes_cov) ->
                        lookup x (b_cov b) = Some (lookup x fields)) /\
      (forall fields x, index_locus (cov_rows genomes_cov) (b_locus b) = Some fields ->
                        In x (cov_fields genomes_cov) ->
                        lookup x (b_cov b) = Some (lookup x fields)) /\
      (forall mr, index_locus example_mappability (b_locus b) = Some mr ->
                  mappability b = duke_35_map mr).
Proof.
  apply (@per_base_join_carries_matches grch37_in_autosome_or_par
           example_mt example_mt example_mappability ["1"] one_cds).
  - unfold has_full_columns. apply in_thresholds_cases; reflexivity.
  - unfold has_full_columns. apply in_thresholds_cases; reflexivity.
  - simpl. intuition discriminate.
  - simpl. intuition discriminate.
Defined.

(** X14.  When the entry schema of either matrix lacks a full-threshold
    column the whole stage raises, whatever the gene model: no joined table
    is returned. *)
Theorem compute_per_base_missing_column_raises
        (iap : locus -> bool) (genomes_mt exomes_mt : matrix_table)
        (ucsc : list (locus * mappability_row))
        (valid_contigs : list string) (lines : list gtf_line) (i : nat) :
  In i thresholds ->
  str_in (over_full i) (entry_schema genomes_mt) = false \/
  str_in (over_full i) (entry_schema exomes_mt) = false ->
  exists msg,
    compute_per_base_cds_coverage iap genomes_mt exomes_mt ucsc valid_contigs lines
    = Err msg.
Proof.
  intros Hi Habsent.
  destruct (compute_per_base_cds_coverage iap genomes_mt exomes_mt ucsc valid_contigs lines)
    as [t|msg] eqn:Ht; [|exists msg; reflexivity].
  exfalso. unfold compute_per_base_cds_coverage in Ht.
  apply bind_ok_inv in Ht. destruct Ht as (gc & Hgc & Ht).
  apply bind_ok_inv in Ht. destruct Ht as (ec & Hec & _).
  pose proof (@get_cov_ht_has_full_columns iap "genomes" genomes_mt gc Hgc i Hi) as Hg.
  pose proof (@get_cov_ht_has_full_columns iap "exomes" exomes_mt ec Hec i Hi) as He.
  destruct Habsent as [H|H]; congruence.
Qed.

Lemma compute_per_base_missing_column_raises_witness :
  exists msg,
    compute_per_base_cds_coverage grch37_in_autosome_or_par example_mt
      {| entry_schema := ["mean"; "median"; "n"; "over_1.0"];
         cols := cols example_mt;
         rows := rows example_mt |}
      example_mappability ["1"] one_cds
    = Err msg.
Proof.
  apply (@compute_per_base_missing_column_raises grch37_in_autosome_or_par example_mt
           _ example_mappability ["1"] one_cds 5%nat).
  - simpl. tauto.
  - right. reflexivity.
Defined.

(** ** The export: rows, names, intervals, coverage that is missing *)

Lemma flat_map_length_const (A B : Type) (f : A -> list B) (k : nat) (t : list A) :
  (forall a, In a t -> List.length (f a) = k) ->
  List.length (flat_map f t) = (List.length t * k)%nat.
Proof.
  induction t as [|a t IH]; intros H; simpl; [reflexivity|].
  rewrite length_app, (H a (or_introl eq_refl)), IH; [reflexivity|].
  intros b Hb. apply H. right. exact Hb.
Qed.

(** X15.  The export has one row per gene id that has a row off Y and per
    coverage field of the table (a row field whose name starts with
    [exomes] or [genomes]); a table without such a field exports nothing. *)
Theorem export_row_count (am : list (option Q) -> option Q) (cov : base_table) :
  List.length (export_gene_coverage am cov)
  = (List.length (group_keys (filter_out_Y (bt_rows cov)))
     * List.length (filter is_cov_field (row_value cov)))%nat.
Proof.
  unfold export_gene_coverage. apply flat_map_length_const.
  intros g _. unfold summarize_gene. rewrite !length_map. reflexivity.
Qed.

(** X16.  A gene id has a row in the export exactly when the table has a
    row of that gene off the Y contig and has a coverage field. *)
Theorem export_gene_iff (am : list (option Q) -> option Q) (cov : base_table) (g : string) :
  (exists s, In s (export_gene_coverage am cov) /\ s_gene_id s = g) <->
  (exists r, In r (bt_rows cov) /\ contig (b_locus r) <> "Y" /\ b_gene_id r = g) /\
  (exists x, In x (row_value cov) /\ is_cov_field x = true).
Proof.
  unfold export_gene_coverage. split.
  - intros (s & Hs & Hg). apply in_flat_map in Hs. destruct Hs as (g' & Hg' & Hs).
    unfold summarize_gene in Hs. rewrite map_map in Hs. apply in_map_iff in Hs.
    destruct Hs as (x & Hsx & Hx). subst s. cbn [s_gene_id] in Hg. subst g'.
    split.
    + unfold group_keys in Hg'. rewrite nodup_In, in_map_iff in Hg'.
      destruct Hg' as (r & Hid & Hr). apply filter_out_Y_In in Hr.
      exists r. tauto.
    + apply filter_In in Hx. exists x. exact Hx.
  - intros ((r & Hr & HY & Hid) & (x & Hx & Hcov)).
    eexists. split.
    + apply in_flat_map. exists g. split.
      * unfold group_keys. rewrite nodup_In, in_map_iff. exists r. split; [exact Hid|].
        apply filter_out_Y_In. tauto.
      * unfold summarize_gene. rewrite map_map. apply in_map_iff. exists x.
        split; [reflexivity|]. apply filter_In. tauto.
    + reflexivity.
Qed.

Lemma py_split_nonempty (sep : ascii) (s : string) : py_split sep s <> [].
Proof.
  destruct s as [|c s]; simpl; [discriminate|].
  destruct (Ascii.eqb c sep); [discriminate|].
  destruct (py_split sep s); discriminate.
Qed.

Lemma concat_cons (sep x : string) (xs : list string) :
  xs <> [] -> String.concat sep (x :: xs) = x ++ sep ++ String.concat sep xs.
Proof. destruct xs; [contradiction | reflexivity]. Qed.

(** Joining the pieces of a split with the separator gives the string back. *)
Lemma concat_py_split (s : string) : String.concat "_" (py_split underscore s) = s.
Proof.
  induction s as [|c s IH]; [reflexivity|].
  pose proof (py_split_nonempty underscore s) as Hne.
  cbn [py_split]. destruct (Ascii.eqb c underscore) eqn:E.
  - apply Ascii.eqb_eq in E. subst c.
    rewrite (concat_cons _ _ Hne), IH. reflexivity.
  - destruct (py_split underscore s) as [|w ws]; [contradiction|].
    destruct ws as [|w' ws].
    + simpl in IH |- *. rewrite IH. reflexivity.
    + rewrite concat_cons in IH |- * by discriminate.
      simpl. rewrite <- IH. reflexivity.
Qed.

(** X17.  For a field that [get_cov_ht] names, [<data_type>_<platform>] with
    the data type [exomes] or [genomes], the export gives back the data
    type and the platform, also when the platform itself has underscores
    or is empty. *)
Theorem export_recovers_data_type_and_platform (pf : string) (grp : list cov_base) :
  data_type (cov_stat_of ("exomes" ++ "_" ++ pf) grp) = "exomes" /\
  platform (cov_stat_of ("exomes" ++ "_" ++ pf) grp) = pf /\
  data_type (cov_stat_of ("genomes" ++ "_" ++ pf) grp) = "genomes" /\
  platform (cov_stat_of ("genomes" ++ "_" ++ pf) grp) = pf.
Proof.
  unfold cov_stat_of. cbn [data_type platform].
  assert (He : py_split underscore ("exomes" ++ "_" ++ pf)
               = "exomes" :: py_split underscore pf).
  { pose proof (py_split_nonempty underscore pf) as Hne.
    simpl. destruct (py_split underscore pf); [contradiction | reflexivity]. }
  assert (Hg : py_split underscore ("genomes" ++ "_" ++ pf)
               = "genomes" :: py_split underscore pf).
  { pose proof (py_split_nonempty underscore pf) as Hne.
    simpl. destruct (py_split underscore pf); [contradiction | reflexivity]. }
  rewrite He, Hg. cbn [hd tl]. rewrite concat_py_split. tauto.
Qed.

Lemma fold_min_lower (xs : list Z) (x y : Z) :
  In y (x :: xs) -> fold_left Z.min xs x <= y.
Proof.
  revert x. induction xs as [|z xs IH]; intros x Hy.
  - destruct Hy as [->|[]]. simpl. lia.
  - simpl. destruct Hy as [->|[->|Hy]].
    + pose proof (fold_min_le xs (Z.min y z)). lia.
    + pose proof (fold_min_le xs (Z.min x y)). lia.
    + apply IH. right. exact Hy.
Qed.

Lemma fold_max_upper (xs : list Z) (x y : Z) :
  In y (x :: xs) -> y <= fold_left Z.max xs x.
Proof.
  revert x. induction xs as [|z xs IH]; intros x Hy.
  - destruct Hy as [->|[]]. simpl. lia.
  - simpl. destruct Hy as [->|[->|Hy]].
    + pose proof (fold_max_ge xs (Z.max y z)). lia.
    + pose proof (fold_max_ge xs (Z.max x y)). lia.
    + apply IH. right. exact Hy.
Qed.

Lemma fold_min_In (xs : list Z) (x : Z) : In (fold_left Z.min xs x) (x :: xs).
Proof.
  revert x. induction xs as [|z xs IH]; intros x; simpl; [tauto|].
  destruct (IH (Z.min x z)) as [E|H].
  - rewrite <- E. destruct (Z.min_spec x z) as [[_ ->]|[_ ->]]; tauto.
  - right. right. exact H.
Qed.

Lemma fold_max_In (xs : list Z) (x : Z) : In (fold_left Z.max xs x) (x :: xs).
Proof.
  revert x. induction xs as [|z xs IH]; intros x; simpl; [tauto|].
  destruct (IH (Z.max x z)) as [E|H].
  - rewrite <- E. destruct (Z.max_spec x z) as [[_ ->]|[_ ->]]; tauto.
  - right. right. exact H.
Qed.

Lemma group_rows_In (g : string) (t : list cov_base) (r : cov_base) :
  In r (group_rows g t) <-> In r t /\ b_gene_id r = g.
Proof. unfold group_rows. rewrite filter_In, String.eqb_eq. tauto. Qed.

(** X18.  The gene interval of an exported row spans the gene off Y: the
    position of every row of the gene that is not on Y lies between its
    start and its end, and both are positions of such rows. *)
Theorem gene_interval_spans_gene (am : list (option Q) -> option Q) (cov : base_table)
        (s : gene_summary) :
  In s (export_gene_coverage am cov) ->
  exists iv,
    gene_interval s = Some iv /\
    (forall r, In r (bt_rows cov) -> contig (b_locus r) <> "Y" ->
               b_gene_id r = s_gene_id s ->
               position (i_start iv) <= position (b_locus r) <= position (i_end iv)) /\
    (exists r, In r (bt_rows cov) /\ contig (b_locus r) <> "Y" /\
               b_gene_id r = s_gene_id s /\ position (b_locus r) = position (i_start iv)) /\
    (exists r, In r (bt_rows cov) /\ contig (b_locus r) <> "Y" /\
               b_gene_id r = s_gene_id s /\ position (b_locus r) = position (i_end iv)).
Proof.
  intros Hs. apply export_gene_coverage_In in Hs. destruct Hs as (g & x & Hg & ->).
  cbn [s_gene_id gene_interval].
  destruct (group_rows_nonempty _ _ Hg) as (r0 & Hr0).
  set (grp := group_rows g (filter_out_Y (bt_rows cov))) in *.
  assert (Hgrp : forall r, In r grp <->
                           In r (bt_rows cov) /\ contig (b_locus r) <> "Y" /\ b_gene_id r = g).
  { intros r. unfold grp. rewrite group_rows_In, filter_out_Y_In. tauto. }
  assert (Hpos : forall p, In p (map (fun r => position (b_locus r)) grp) <->
                           exists r, In r grp /\ position (b_locus r) = p).
  { intros p. rewrite in_map_iff. split; intros (r & H1 & H2); exists r; tauto. }
  destruct grp as [|r1 rest] eqn:E; [contradiction|].
  cbn [map agg_take1 agg_min agg_max hl_interval_of] in *.
  eexists. split; [reflexivity|]. cbn [i_start i_end position]. split; [|split].
  - intros r Hr HY Hid.
    assert (Hin : In (position (b_locus r))
                     (position (b_locus r1) :: map (fun r => position (b_locus r)) rest)).
    { apply Hpos. exists r. split; [apply Hgrp; tauto | reflexivity]. }
    split; [apply fold_min_lower | apply fold_max_upper]; exact Hin.
  - pose proof (fold_min_In (map (fun r => position (b_locus r)) rest)
                            (position (b_locus r1))) as Hin.
    apply Hpos in Hin. destruct Hin as (r & Hr & Hp). apply Hgrp in Hr.
    exists r. tauto.
  - pose proof (fold_max_In (map (fun r => position (b_locus r)) rest)
                            (position (b_locus r1))) as Hin.
    apply Hpos in Hin. destruct Hin as (r & Hr & Hp). apply Hgrp in Hr.
    exists r. tauto.
Qed.

Lemma gene_interval_spans_gene_witness :
  exists s iv,
    In s (export_gene_coverage hl_median example_joined) /\
    gene_interval s = Some iv /\
    (forall r, In r (bt_rows example_joined) -> contig (b_locus r) <> "Y" ->
               b_gene_id r = s_gene_id s ->
               position (i_start iv) <= position (b_locus r) <= position (i_end iv)) /\
    (exists r, In r (bt_rows example_joined) /\ contig (b_locus r) <> "Y" /\
               b_gene_id r = s_gene_id s /\ position (b_locus r) = position (i_start iv)) /\
    (exists r, In r (bt_rows example_joined) /\ contig (b_locus r) <> "Y" /\
               b_gene_id r = s_gene_id s /\ position (b_locus r) = position (i_end iv)).
Proof.
  eexists.
  destruct (@gene_interval_spans_gene hl_median example_joined
              (hd (Build_gene_summary "" None None None None
                     (Build_cov_stat "" "" None None))
                  (export_gene_coverage hl_median example_joined)))
    as (iv & H).
  - left. reflexivity.
  - exists iv. split; [left; reflexivity | exact H].
Defined.



(** ** The script: how the stages compose *)

(** X20.  With both flags, when the join succeeds, the summary that is
    exported is the summary of the joined table this run has just written,
    whatever the path of the joined table held before; both messages are
    printed, in order. *)
Theorem main_exports_what_it_computed
        (iap : locus -> bool) (am : list (option Q) -> option Q)
        (inp : inputs) (w : world) (t : base_table) :
  compute_per_base_cds_coverage iap (genomes_coverage_mt inp) (exomes_coverage_mt inp)
    (ucsc_mappability_ht inp) (grch37_contigs inp) (gencode_gtf inp) = OK t ->
  main iap am inp {| arg_compute_per_base_cds_coverage := true;
                     arg_export_gene_coverage := true |} w
  = ({| stdout := List.app (stdout w)
                    ["Computing per-base CDS coverage"; "Exporting gene coverage"];
        gene_by_base_ht := Some (import_cds_from_gtf (grch37_contigs inp) (gencode_gtf inp));
        gene_by_base_cov_ht := Some t;
        summary_tsv :=
          Some ({| g_min_good_coverage_prop := 8 # 10;
                   g_min_good_coverage_dp := "over_10.0" |},
                export_gene_coverage am t) |}, OK tt).
Proof.
  intros Ht. unfold main, run_bind, py_print, compute_per_base_cds_coverage_stage,
    export_gene_coverage_stage.
  cbn [arg_compute_per_base_cds_coverage arg_export_gene_coverage].
  rewrite Ht. cbn [stdout gene_by_base_ht gene_by_base_cov_ht summary_tsv].
  rewrite <- app_assoc. reflexivity.
Qed.

Lemma main_exports_what_it_computed_witness :
  exists t,
    main grch37_in_autosome_or_par hl_median example_inputs
         {| arg_compute_per_base_cds_coverage := true;
            arg_export_gene_coverage := true |} empty_world
    = ({| stdout := List.app (stdout empty_world)
                      ["Computing per-base CDS coverage"; "Exporting gene coverage"];
          gene_by_base_ht := Some (import_cds_from_gtf (grch37_contigs example_inputs)
                                                        (gencode_gtf example_inputs));
          gene_by_base_cov_ht := Some t;
          summary_tsv :=
            Some ({| g_min_good_coverage_prop := 8 # 10;
                     g_min_good_coverage_dp := "over_10.0" |},
                  export_gene_coverage hl_median t) |}, OK tt).
Proof.
  eexists.
  apply (@main_exports_what_it_computed grch37_in_autosome_or_par hl_median
           example_inputs empty_world).
  reflexivity.
Defined.



(** X22.  With the export flag alone the summary is the one of the joined
    table that is stored, which is left as it is, as is the checkpoint;
    when no joined table is stored the run raises after its message and
    writes no summary. *)
Theorem main_export_only
        (iap : locus -> bool) (am : list (option Q) -> option Q)
        (inp : inputs) (w : world) :
  (forall cov, gene_by_base_cov_ht w = Some cov ->
     main iap am inp {| arg_compute_per_base_cds_coverage := false;
                        arg_export_gene_coverage := true |} w
     = ({| stdout := List.app (stdout w) ["Exporting gene coverage"];
           gene_by_base_ht := gene_by_base_ht w;
           gene_by_base_cov_ht := Some cov;
           summary_tsv :=
             Some ({| g_min_good_coverage_prop := 8 # 10;
                      g_min_good_coverage_dp := "over_10.0" |},
                   export_gene_coverage am cov) |}, OK tt)) /\
  (gene_by_base_cov_ht w = None ->
     exists msg,
       main iap am inp {| arg_compute_per_base_cds_coverage := false;
                          arg_export_gene_coverage := true |} w
       = ({| stdout := List.app (stdout w) ["Exporting gene coverage"];
             gene_by_base_ht := gene_by_base_ht w;
             gene_by_base_cov_ht := None;
             summary_tsv := summary_tsv w |}, Err msg)).
Proof.
  unfold main, run_bind, run_ret, py_print, export_gene_coverage_stage.
  cbn [arg_compute_per_base_cds_coverage arg_export_gene_coverage
       stdout gene_by_base_ht gene_by_base_cov_ht summary_tsv].
  split.
  - intros cov Hcov. rewrite Hcov. reflexivity.
  - intros Hnone. rewrite Hnone. eexists. reflexivity.
Qed.

Lemma main_export_only_witness :
  main grch37_in_autosome_or_par hl_median example_inputs
       {| arg_compute_per_base_cds_coverage := false;
          arg_export_gene_coverage := true |}
       {| stdout := []; gene_by_base_ht := None;
          gene_by_base_cov_ht := Some example_joined; summary_tsv := None |}
  = ({| stdout := ["Exporting gene coverage"];
        gene_by_base_ht := None;
        gene_by_base_cov_ht := Some example_joined;
        summary_tsv :=
          Some ({| g_min_good_coverage_prop := 8 # 10;
                   g_min_good_coverage_dp := "over_10.0" |},
                export_gene_coverage hl_median example_joined) |}, OK tt) /\
  exists msg,
    main grch37_in_autosome_or_par hl_median example_inputs
         {| arg_compute_per_base_cds_coverage := false;
            arg_export_gene_coverage := true |} empty_world
    = ({| stdout := ["Exporting gene coverage"];
          gene_by_base_ht := None;
          gene_by_base_cov_ht := None;
          summary_tsv := None |}, Err msg).
Proof.
  split.
  - apply (proj1 (@main_export_only grch37_in_autosome_or_par hl_median example_inputs
                    {| stdout := []; gene_by_base_ht := None;
                       gene_by_base_cov_ht := Some example_joined;
                       summary_tsv := None |})).
    reflexivity.
  - apply (proj2 (@main_export_only grch37_in_autosome_or_par hl_median example_inputs
                    empty_world)).
    reflexivity.
Defined.


